(** * Ahorcado: the round logic of [funciones.js] and [app.js]

  A shallow embedding of the hangman game.  JavaScript strings are
  sequences of UTF-16 code units ([list N]), arrays are lists whose
  slots may be empty ([list (option _)]), the [Set] of used letters is
  a [gset], and the module-level variables of [app.js] are the fields
  of one record that every operation threads explicitly. *)

From Stdlib Require Import String Ascii.
From stdpp Require Import base numbers option list gmap strings pretty sorting.

(** ** The JavaScript values the game manipulates *)

Module JS.

(** A string is the list of its UTF-16 code units. *)
Abbreviation cadena := (list N).

(** An array: [Some v] is a slot holding [v], [None] an empty slot. *)
Abbreviation arreglo := (list (option (list N))).

(** A string literal of the source, all of whose characters are ASCII. *)
Definition deAscii (s : string) : cadena :=
  N_of_ascii <$> list_ascii_of_string s.

(** [String.prototype.toUpperCase], one code unit at a time, over Basic
    Latin and the Latin-1 Supplement (the range of the game's alphabet):
    a-z, the accented letters U+00E0..U+00FE except the division sign,
    and the three special cases of that range (micro sign, sharp s,
    y with diaeresis).  Code units above U+00FF are left as they are. *)
Definition mayusculaUnidad (c : N) : cadena :=
  if (97 <=? c)%N && (c <=? 122)%N then [(c - 32)%N]
  else if (c =? 181)%N then [924%N]
  else if (c =? 223)%N then [83%N; 83%N]
  else if (224 <=? c)%N && (c <=? 254)%N && negb (c =? 247)%N then [(c - 32)%N]
  else if (c =? 255)%N then [376%N]
  else [c].

Definition toUpperCase (s : cadena) : cadena := s ≫= mayusculaUnidad.

(** WhiteSpace and LineTerminator code units, as [trim] removes them. *)
Definition esEspacio (c : N) : bool :=
  bool_decide (c ∈ [9; 10; 11; 12; 13; 32; 160; 5760; 8232; 8233; 8239;
                    8287; 12288; 65279]%N)
  || ((8192 <=? c)%N && (c <=? 8202)%N).

Fixpoint trimStart (s : cadena) : cadena :=
  match s with
  | [] => []
  | c :: resto => if esEspacio c then trimStart resto else s
  end.

Definition trimEnd (s : cadena) : cadena := reverse (trimStart (reverse s)).

Definition trim (s : cadena) : cadena := trimEnd (trimStart s).

(** [a[i]] read: [None] is [undefined], for an empty slot as for an
    index past the end. *)
Definition leer {A} (a : list (option A)) (i : nat) : option A :=
  a !! i ≫= id.

(** [a[i] = v]: in range the slot is overwritten; past the end the array
    grows, the slots in between staying empty. *)
Definition asignar {A} (a : list (option A)) (i : nat) (v : A)
  : list (option A) :=
  if decide (i < length a) then <[i := Some v]> a
  else a ++ replicate (i - length a) None ++ [Some v].

(** [Array(n).fill(v)]. *)
Definition rellenar {A} (n : nat) (v : A) : list (option A) :=
  replicate n (Some v).

(** [a.includes(v)] for a string [v]: empty slots read as [undefined]
    and never equal a string. *)
Definition includes (a : arreglo) (v : cadena) : bool :=
  bool_decide (Some v ∈ a).

(** [s.split('')]: one single-unit string per code unit. *)
Definition split (s : cadena) : arreglo := (λ c, Some [c]) <$> s.

(** What a call does: it returns a value or throws. *)
Inductive Error :=
  | ErrorCarga      (* new Error("Error al cargar el archivo JSON") *)
  | ErrorRed        (* fetch rejected *)
  | ErrorJson       (* response.json() rejected *)
  | TypeError.      (* property read on undefined, call of a non-function *)

Inductive Resultado (A : Type) :=
  | Devuelve (a : A)
  | Lanza (err : Error).
Arguments Devuelve {A} a.
Arguments Lanza {A} err.

#[global] Instance Error_eq_dec : EqDecision Error.
Proof. solve_decision. Defined.

End JS.

Import JS.

(** ** funciones.js *)

Module Funciones.

(** An element of [data.words]; [item] is [None] when the property is
    absent or is not a string. *)
Record Entrada := { item : option cadena }.

(** What [fetch(archivo)] and [response.json()] can produce. [words] is
    [None] when the document has no array under that key. *)
Inductive Respuesta :=
  | SinRed
  | NoOk
  | JsonInvalido
  | JsonNulo
  | Documento (words : option (list Entrada)).

Definition archivoPorDefecto : string := "words.json".

Definition cargarPalabras (red : string → Respuesta) (archivo : string)
  : Resultado (option (list Entrada)) :=
  match red archivo with
  | SinRed => Lanza ErrorRed
  | NoOk => Lanza ErrorCarga
  | JsonInvalido => Lanza ErrorJson
  | JsonNulo => Lanza TypeError
  | Documento words => Devuelve words
  end.

(** One draw of [Math.random()]: the fraction [num/den], in [0, 1) when
    [num < den]. *)
Record Aleatorio := { num : nat; den : nat }.

(** [Math.floor(Math.random() * n)], with the product taken exactly: the
    rounding of the double product is not modelled, and what is proved of
    the index is only that it falls inside the list. *)
Definition indiceAleatorio (r : Aleatorio) (n : nat) : nat :=
  (num r * n) `div` den r.

Definition obtenerPalabraAleatoria (r : Aleatorio)
    (palabras : option (list Entrada)) : Resultado cadena :=
  match palabras with
  | None => Lanza TypeError
  | Some lista =>
      match lista !! indiceAleatorio r (length lista) with
      | None => Lanza TypeError
      | Some entrada =>
          match item entrada with
          | None => Lanza TypeError
          | Some texto => Devuelve (toUpperCase texto)
          end
      end
  end.

(** The placeholder ["_"]. *)
Definition guion : cadena := [95%N].

Definition crearGuiones (palabra : cadena) : arreglo :=
  rellenar (length palabra) guion.

Record Validacion := { valido : bool; mensaje : string }.

(** The character class [[a-zA-ZñÑáéíóúÁÉÍÓÚ]]. *)
Definition letraAceptada (c : N) : bool :=
  ((97 <=? c)%N && (c <=? 122)%N)
  || ((65 <=? c)%N && (c <=? 90)%N)
  || bool_decide (c ∈ [241; 209; 225; 233; 237; 243; 250;
                       193; 201; 205; 211; 218]%N).

(** [/^[a-zA-ZñÑáéíóúÁÉÍÓÚ]$/.test(input)]: exactly one code unit, of
    the class. *)
Definition pruebaLetra (input : cadena) : bool :=
  match input with
  | [c] => letraAceptada c
  | _ => false
  end.

Definition mensajeVacio : string := "Por favor, introduce una letra".
Definition mensajeLargo : string := "Solo puedes introducir una letra".
Definition mensajeNoLetra : string := "Solo se permiten letras".

Definition validarInput (input : cadena) : Validacion :=
  if bool_decide (input = []) || bool_decide (trim input = []) then
    {| valido := false; mensaje := mensajeVacio |}
  else if bool_decide (1 < length input) then
    {| valido := false; mensaje := mensajeLargo |}
  else if negb (pruebaLetra input) then
    {| valido := false; mensaje := mensajeNoLetra |}
  else
    {| valido := true; mensaje := "" |}.

(** The reason a validation result carries, read off its message. *)
Inductive Motivo := Vacio | DemasiadoLargo | CaracterNoPermitido.

Definition motivo (v : Validacion) : option Motivo :=
  if valido v then None
  else if String.eqb (mensaje v) mensajeVacio then Some Vacio
  else if String.eqb (mensaje v) mensajeLargo then Some DemasiadoLargo
  else if String.eqb (mensaje v) mensajeNoLetra then Some CaracterNoPermitido
  else None.

(** The loop of [comprobarLetra], from index [i] on. *)
Fixpoint comprobarDesde (letraMayuscula : cadena) (resto : cadena) (i : nat)
  : list nat :=
  match resto with
  | [] => []
  | c :: resto' =>
      if decide ([c] = letraMayuscula)
      then i :: comprobarDesde letraMayuscula resto' (S i)
      else comprobarDesde letraMayuscula resto' (S i)
  end.

Definition comprobarLetra (letra palabraSecreta : cadena) : list nat :=
  comprobarDesde (toUpperCase letra) palabraSecreta 0.

(** [revelarLetras] on array values: the copy, then one assignment per
    index, in order. *)
Definition revelarLetras (letrasDescubiertas : arreglo) (letra : cadena)
    (indices : list nat) : arreglo :=
  foldl (λ nuevoArray indice, asignar nuevoArray indice (toUpperCase letra))
        letrasDescubiertas indices.

Definition comprobarVictoria (letrasDescubiertas : arreglo) : bool :=
  negb (includes letrasDescubiertas guion).

(** *** [revelarLetras] on array objects

    Arrays are objects: a store maps each address to the array it holds,
    and [revelarLetras] receives the address of [letrasDescubiertas]. *)

Abbreviation almacen := (gmap nat (list (option (list N)))).

(** A computation on the store; [None] is a read of an address that holds
    no array. *)
Definition Op (A : Type) : Type := almacen → option (A * almacen).

Definition devolver {A} (a : A) : Op A := λ h, Some (a, h).

Definition ligar {A B} (m : Op A) (k : A → Op B) : Op B :=
  λ h, match m h with
       | Some (a, h') => k a h'
       | None => None
       end.

Notation "x ⇐ m ;; k" := (ligar m (λ x, k))
  (at level 100, m at next level, right associativity).

(** [[...arr]]: a new array object with the slots of [arr]. *)
Definition copiar (arr : nat) : Op nat :=
  λ h, match h !! arr with
       | Some slots => let nuevo := fresh (dom h) in
                       Some (nuevo, <[nuevo := slots]> h)
       | None => None
       end.

(** [arr[i] = v], in place. *)
Definition escribir (arr : nat) (i : nat) (v : cadena) : Op unit :=
  λ h, match h !! arr with
       | Some slots => Some ((), <[arr := asignar slots i v]> h)
       | None => None
       end.

(** [xs.forEach(f)]. *)
Fixpoint paraCada {A} (xs : list A) (f : A → Op unit) : Op unit :=
  match xs with
  | [] => devolver ()
  | x :: resto => _ ⇐ f x ;; paraCada resto f
  end.

Definition revelarLetrasRef (letrasDescubiertas : nat) (letra : cadena)
    (indices : list nat) : Op nat :=
  nuevoArray ⇐ copiar letrasDescubiertas ;;
  _ ⇐ paraCada indices
        (λ indice, escribir nuevoArray indice (toUpperCase letra)) ;;
  devolver nuevoArray.

End Funciones.

Import Funciones.

(** ** app.js *)

Module App.

Definition MAX_INTENTOS : nat := 8.

(** The values [currentTheme] takes: a theme name, or the click event that
    the restart button hands to [inicializarJuego] as its argument. *)
Inductive Valor :=
  | Cadena (s : string)
  | Evento.

#[global] Instance Valor_eq_dec : EqDecision Valor.
Proof. solve_decision. Defined.

(** The classes of [resultMessage.classList] that the game adds and
    removes. *)
Record ClassList := { cl_win : bool; cl_lose : bool; cl_hidden : bool }.

(** The module-level variables, and the class list of the result banner.
    The value of the text box is the argument of [procesarLetra]; the
    other elements of the page (word container, image, counters, titles,
    buttons) are written from these variables and never read back, and
    are left out. *)
Record Estado := {
  palabraSecreta : cadena;
  letrasDescubiertas : arreglo;
  intentosFallidos : nat;
  juegoTerminado : bool;
  letrasUsadas : gset (list N);
  currentTheme : Valor;
  letrasIncorrectas : list (list N);
  resultMessage : ClassList
}.

(** The state when the module has been evaluated, before the first call
    of [inicializarJuego]; [cl] is the banner's class list in the page. *)
Definition estadoInicial (cl : ClassList) : Estado :=
  {| palabraSecreta := [];
     letrasDescubiertas := [];
     intentosFallidos := 0;
     juegoTerminado := false;
     letrasUsadas := ∅;
     currentTheme := Cadena "general";
     letrasIncorrectas := [];
     resultMessage := cl |}.

Definition mostrarError (e : Estado) : Estado :=
  {| palabraSecreta := palabraSecreta e;
     letrasDescubiertas := letrasDescubiertas e;
     intentosFallidos := intentosFallidos e;
     juegoTerminado := juegoTerminado e;
     letrasUsadas := letrasUsadas e;
     currentTheme := currentTheme e;
     letrasIncorrectas := letrasIncorrectas e;
     resultMessage := {| cl_win := false; cl_lose := false; cl_hidden := false |} |}.

Definition finalizarJuego (victoria : bool) (e : Estado) : Estado :=
  if victoria then
    {| palabraSecreta := palabraSecreta e;
       letrasDescubiertas := letrasDescubiertas e;
       intentosFallidos := intentosFallidos e;
       juegoTerminado := true;
       letrasUsadas := letrasUsadas e;
       currentTheme := currentTheme e;
       letrasIncorrectas := letrasIncorrectas e;
       resultMessage := {| cl_win := true; cl_lose := false; cl_hidden := false |} |}
  else
    {| palabraSecreta := palabraSecreta e;
       letrasDescubiertas := split (palabraSecreta e);
       intentosFallidos := intentosFallidos e;
       juegoTerminado := true;
       letrasUsadas := letrasUsadas e;
       currentTheme := currentTheme e;
       letrasIncorrectas := letrasIncorrectas e;
       resultMessage := {| cl_win := false; cl_lose := true; cl_hidden := false |} |}.

(** The file [inicializarJuego] fetches for a theme. *)
Definition archivoDe (theme : Valor) : string :=
  if decide (theme = Cadena "musica") then "words2.json" else "words.json".

(** [inicializarJuego(theme)] is asynchronous: it runs up to the [await]
    of [cargarPalabras], and resumes when the fetch has settled; calls of
    [procesarLetra] can come in between.

    The first part: [theme = None] is a call without argument, which takes
    [currentTheme]. It leaves the new state and the file to fetch. *)
Definition solicitarPalabras (theme : option Valor) (e : Estado)
  : Estado * string :=
  let theme := default (currentTheme e) theme in
  ({| palabraSecreta := palabraSecreta e;
      letrasDescubiertas := letrasDescubiertas e;
      intentosFallidos := intentosFallidos e;
      juegoTerminado := juegoTerminado e;
      letrasUsadas := letrasUsadas e;
      currentTheme := theme;
      letrasIncorrectas := letrasIncorrectas e;
      resultMessage := resultMessage e |},
   archivoDe theme).

(** The second part, from what [cargarPalabras] produced; [r] is the draw
    of [Math.random()]. Whatever is thrown inside the [try] ends in
    [mostrarError]. *)
Definition recibirPalabras (carga : Resultado (option (list Entrada)))
    (r : Aleatorio) (e : Estado) : Estado :=
  match carga with
  | Lanza _ => mostrarError e
  | Devuelve palabras =>
      match obtenerPalabraAleatoria r palabras with
      | Lanza _ => mostrarError e
      | Devuelve palabra =>
          {| palabraSecreta := palabra;
             letrasDescubiertas := crearGuiones palabra;
             intentosFallidos := 0;
             juegoTerminado := false;
             letrasUsadas := ∅;
             currentTheme := currentTheme e;
             letrasIncorrectas := [];
             resultMessage :=
               {| cl_win := cl_win (resultMessage e);
                  cl_lose := cl_lose (resultMessage e);
                  cl_hidden := true |} |}
      end
  end.

(** A call of [inicializarJuego] that nothing interrupts; [red] answers
    the fetch. *)
Definition inicializarJuego (theme : option Valor) (red : string → Respuesta)
    (r : Aleatorio) (e : Estado) : Estado :=
  let '(e1, archivo) := solicitarPalabras theme e in
  recibirPalabras (cargarPalabras red archivo) r e1.

Definition avisoYaUsada : string := "Ya has usado esta letra. Intenta con otra.".

(** The assignments of the branch [indices.length > 0], up to the check
    for victory; the letter is already among the used ones. *)
Definition acierto (input : cadena) (indices : list nat) (e : Estado) : Estado :=
  {| palabraSecreta := palabraSecreta e;
     letrasDescubiertas := revelarLetras (letrasDescubiertas e) input indices;
     intentosFallidos := intentosFallidos e;
     juegoTerminado := juegoTerminado e;
     letrasUsadas := {[ toUpperCase input ]} ∪ letrasUsadas e;
     currentTheme := currentTheme e;
     letrasIncorrectas := letrasIncorrectas e;
     resultMessage := resultMessage e |}.

(** The assignments of the [else] branch, up to the check for defeat. *)
Definition fallo (input : cadena) (e : Estado) : Estado :=
  {| palabraSecreta := palabraSecreta e;
     letrasDescubiertas := letrasDescubiertas e;
     intentosFallidos := S (intentosFallidos e);
     juegoTerminado := juegoTerminado e;
     letrasUsadas := {[ toUpperCase input ]} ∪ letrasUsadas e;
     currentTheme := currentTheme e;
     letrasIncorrectas := letrasIncorrectas e ++ [toUpperCase input];
     resultMessage := resultMessage e |}.

(** [procesarLetra()], with [input] the value of the text box. The result
    is the new state and the text of the [alert], if one was raised. *)
Definition procesarLetra (input : cadena) (e : Estado) : Estado * option string :=
  if juegoTerminado e then (e, None)
  else
    let validacion := validarInput input in
    if negb (valido validacion) then (e, Some (mensaje validacion))
    else
      let letraMayuscula := toUpperCase input in
      if decide (letraMayuscula ∈ letrasUsadas e) then (e, Some avisoYaUsada)
      else
        let indices := comprobarLetra input (palabraSecreta e) in
        if bool_decide (0 < length indices) then
          let e2 := acierto input indices e in
          if comprobarVictoria (letrasDescubiertas e2)
          then (finalizarJuego true e2, None)
          else (e2, None)
        else
          let e2 := fallo input e in
          if bool_decide (MAX_INTENTOS ≤ intentosFallidos e2)
          then (finalizarJuego false e2, None)
          else (e2, None).

(** A sequence of calls of [procesarLetra], oldest first. *)
Definition jugar (entradas : list (list N)) (e : Estado) : Estado :=
  foldl (λ e input, (procesarLetra input e).1) e entradas.

(** The round has been won: it is over and the banner says so. *)
Definition ganada (e : Estado) : bool :=
  juegoTerminado e && cl_win (resultMessage e).

(** The round has been lost. *)
Definition perdida (e : Estado) : bool :=
  juegoTerminado e && cl_lose (resultMessage e).

End App.

Import App.

(** ** Reachable states and what holds of them *)

(** The states the page can be in: the initial one, and those that the
    two parts of [inicializarJuego] and the calls of [procesarLetra] lead
    to, in any order. *)
Inductive alcanzable : Estado → Prop :=
  | alc_inicial cl : alcanzable (estadoInicial cl)
  | alc_solicitar theme e :
      alcanzable e → alcanzable (solicitarPalabras theme e).1
  | alc_recibir carga r e :
      alcanzable e → alcanzable (recibirPalabras carga r e)
  | alc_letra input e :
      alcanzable e → alcanzable (procesarLetra input e).1.

Record Inv (e : Estado) : Prop := {
  inv_longitud :
    length (letrasDescubiertas e) = length (palabraSecreta e);
  inv_intentos :
    intentosFallidos e = length (letrasIncorrectas e);
  inv_exclusion :
    juegoTerminado e = true →
    cl_win (resultMessage e) && cl_lose (resultMessage e) = false;
  inv_cota :
    juegoTerminado e = false → intentosFallidos e < MAX_INTENTOS;
  inv_celdas :
    juegoTerminado e = false →
    ∀ i c, palabraSecreta e !! i = Some c →
      leer (letrasDescubiertas e) i =
        Some (if decide ([c] ∈ letrasUsadas e) then [c] else guion)
}.

(** [inicializarJuego] ended in its [catch]. *)
Definition inicioFalla (theme : option Valor) (red : string → Respuesta)
    (r : Aleatorio) (e : Estado) : bool :=
  match cargarPalabras red (archivoDe (default (currentTheme e) theme)) with
  | Lanza _ => true
  | Devuelve palabras =>
      match obtenerPalabraAleatoria r palabras with
      | Lanza _ => true
      | Devuelve _ => false
      end
  end.

(** ** The rest of the page *)

(** [obtenerImagenAhorcado] of funciones.js: the template literal prints
    the count in decimal (as JavaScript does below 10^21). *)
Definition obtenerImagenAhorcado (intentos : nat) : string :=
  "images/Hangman-" +:+ pretty intentos +:+ ".png".

(** [renderizarPalabra] of funciones.js: the texts of the boxes that the
    container holds after the call, in order. [forEach] passes over empty
    slots, and a placeholder gives an empty box. *)
Definition renderizarPalabra (letrasDescubiertas : arreglo) : list (list N) :=
  omap (λ celda, (λ letra, if decide (letra = guion) then [] else letra) <$> celda)
       letrasDescubiertas.

(** [actualizarIntentos]: the number written in the counter and its
    colour. *)
Record Contador := { restantes : Z; color : string }.

Definition actualizarIntentos (e : Estado) : Contador :=
  let restantes := (Z.of_nat MAX_INTENTOS - Z.of_nat (intentosFallidos e))%Z in
  {| restantes := restantes;
     color := if (restantes <=? 2)%Z then "#ef4444"
              else if (restantes <=? 4)%Z then "#f59e0b"
              else "#6366f1" |}.

(** [/^[a-zA-ZñÑáéíóúÁÉÍÓÚ]?$/.test(valor)]: nothing, or one code unit of
    the class. *)
Definition pruebaLetraOpcional (valor : cadena) : bool :=
  match valor with
  | [] => true
  | [c] => letraAceptada c
  | _ => false
  end.

(** The listener of the text box's [input] event: the value the box is
    left with. *)
Definition alEscribir (valor : cadena) : cadena :=
  if pruebaLetraOpcional valor then valor else [].

(** The listeners of the two theme buttons, for [tema] "general" and
    "musica": a click on the theme in use does nothing. *)
Definition clicTema (tema : string) (red : string → Respuesta) (r : Aleatorio)
    (e : Estado) : Estado :=
  if decide (currentTheme e ≠ Cadena tema)
  then inicializarJuego (Some (Cadena tema)) red r e
  else e.

(** The listener of the restart button is [inicializarJuego] itself, so
    the click event arrives as its [theme]. *)
Definition clicReiniciar (red : string → Respuesta) (r : Aleatorio)
    (e : Estado) : Estado :=
  inicializarJuego (Some Evento) red r e.

(** A text whose code units are all within Basic Latin and the Latin-1
    Supplement, the range over which [mayusculaUnidad] is the case mapping
    of JavaScript. *)
Definition textoLatino1 (texto : cadena) : bool :=
  forallb (λ c, (c <=? 255)%N) texto.

(** A list of words whose texts are all within that range. *)
Definition listaLatina1 (lista : list Entrada) : bool :=
  forallb (λ entrada, from_option textoLatino1 true (item entrada)) lista.

(** An upper-case letter of the alphabet: what a valid input turns into. *)
Definition letraMayuscula (c : N) : bool :=
  letraAceptada c && bool_decide (toUpperCase [c] = [c]).

(** What holds of the letters of every reachable state, besides [Inv]. *)
Record InvLetras (e : Estado) : Prop := {
  il_usadas :
    ∀ l, l ∈ letrasUsadas e → ∃ c, l = [c] ∧ letraMayuscula c = true;
  il_reparto :
    ∀ l, l ∈ letrasUsadas e →
      l ∈ letrasIncorrectas e ∨ ∃ c, c ∈ palabraSecreta e ∧ [c] = l;
  il_incorrectas_unicas :
    NoDup (letrasIncorrectas e);
  il_incorrectas :
    ∀ l, l ∈ letrasIncorrectas e →
      l ∈ letrasUsadas e ∧ ∀ c, c ∈ palabraSecreta e → [c] ≠ l;
  il_maximo :
    intentosFallidos e ≤ MAX_INTENTOS;
  il_celdas :
    ∀ i c, palabraSecreta e !! i = Some c →
      letrasDescubiertas e !! i = Some (Some [c])
      ∨ letrasDescubiertas e !! i = Some (Some guion);
  il_guion :
    juegoTerminado e = false → palabraSecreta e ≠ [] →
    Some guion ∈ letrasDescubiertas e;
  il_ganada :
    ganada e = true →
    letrasDescubiertas e = split (palabraSecreta e)
    ∧ intentosFallidos e < MAX_INTENTOS
    ∧ palabraSecreta e ≠ []
    ∧ ∀ c, c ∈ palabraSecreta e → [c] ∈ letrasUsadas e;
  il_perdida :
    perdida e = true →
    letrasDescubiertas e = split (palabraSecreta e)
    ∧ intentosFallidos e = MAX_INTENTOS
}.

(** ** Concrete rounds *)

(** A corpus document whose entries are the given ASCII words. *)
Definition redDe (palabras : list string) : string → Respuesta :=
  λ _, Documento (Some ((λ p, {| item := Some (deAscii p) |}) <$> palabras)).

Definition sorteo0 : Aleatorio := {| num := 0; den := 1 |}.

Definition claseOculta : ClassList :=
  {| cl_win := false; cl_lose := false; cl_hidden := true |}.

Definition letras (ls : list string) : list (list N) := deAscii <$> ls.

(** A round on the word "sol". *)
Definition rondaSol : Estado :=
  inicializarJuego None (redDe ["sol"]) sorteo0 (estadoInicial claseOculta).

(** The same round after seven letters that the word does not have. *)
Definition rondaSol7 : Estado :=
  jugar (letras ["a"; "b"; "c"; "d"; "e"; "f"; "g"]) rondaSol.

(** The network of Scenario E: every file holds an empty list of words. *)
Definition redVacia : string → Respuesta := λ _, Documento (Some []).

(** A round on the word "gato". *)
Definition rondaGato : Estado :=
  inicializarJuego (Some (Cadena "general")) (redDe ["gato"]) sorteo0
    (estadoInicial claseOculta).

(** The round on "gato" once its four letters have been found. *)
Definition rondaGatoGanada : Estado :=
  jugar (letras ["G"; "A"; "T"; "O"]) rondaGato.

(** The array of a round on "casa" in which the two A's are revealed, and
    a store that holds it at address 0. *)
Definition arregloCasa : arreglo :=
  [Some guion; Some (deAscii "A"); Some guion; Some (deAscii "A")].

Definition almacenCasa : almacen := {[ 0 := arregloCasa ]}.

(** * Properties *)

(** ** Arrays *)

Section Arreglos.
Context {A : Type}.
Implicit Types (a : list (option A)) (i j : nat) (v : A).

Lemma length_asignar a i v : length (asignar a i v) = length a `max` S i.
Proof.
  unfold asignar. case_decide.
  - rewrite length_insert. lia.
  - rewrite !length_app, length_replicate. simpl. lia.
Qed.

Lemma leer_asignar a i v j :
  leer (asignar a i v) j = if decide (i = j) then Some v else leer a j.
Proof.
  unfold asignar, leer. destruct (decide (i < length a)) as [Hi|Hi].
  - case_decide as Hij.
    + subst j. by rewrite list_lookup_insert_eq.
    + by rewrite list_lookup_insert_ne.
  - destruct (decide (j < length a)) as [Hj|Hj].
    + rewrite lookup_app_l by done. case_decide; [lia | done].
    + rewrite lookup_app_r by lia.
      rewrite (lookup_ge_None_2 a j) by lia. simpl.
      destruct (decide (j - length a < i - length a)) as [Hlt|Hge].
      * rewrite lookup_app_l by (rewrite length_replicate; lia).
        rewrite lookup_replicate_2 by lia. simpl. case_decide; [lia | done].
      * rewrite lookup_app_r by (rewrite length_replicate; lia).
        rewrite length_replicate. case_decide as Hij.
        -- subst j. by replace (i - length a - (i - length a)) with 0 by lia.
        -- rewrite lookup_ge_None_2; [done | simpl; lia].
Qed.

Lemma lookup_de_leer a i v : leer a i = Some v → a !! i = Some (Some v).
Proof.
  unfold leer. destruct (a !! i) as [[x|]|]; simpl; unfold id; congruence.
Qed.

End Arreglos.

Lemma length_revelar a letra indices :
  (∀ i, i ∈ indices → i < length a) →
  length (revelarLetras a letra indices) = length a.
Proof.
  unfold revelarLetras. revert a.
  induction indices as [|k indices IH]; intros a Hin; [done|]. simpl.
  assert (k < length a) by (apply Hin; left).
  rewrite IH; rewrite length_asignar; [lia|].
  intros i Hi. assert (i < length a) by (apply Hin; by right). lia.
Qed.

Lemma leer_revelar a letra indices j :
  leer (revelarLetras a letra indices) j =
    if decide (j ∈ indices) then Some (toUpperCase letra) else leer a j.
Proof.
  unfold revelarLetras. revert a.
  induction indices as [|k indices IH]; intros a; cbn [foldl].
  - rewrite decide_False; [done | apply not_elem_of_nil].
  - rewrite IH, leer_asignar.
    destruct (decide (j ∈ indices)) as [Hj|Hj].
    + rewrite decide_True; [done | by right].
    + destruct (decide (k = j)) as [->|Hk].
      * rewrite decide_True; [done | left].
      * rewrite decide_False; [done|].
        intros [->|?]%elem_of_cons; done.
Qed.

(** ** [comprobarLetra] *)

Lemma elem_of_comprobarDesde letraMayuscula resto k j :
  j ∈ comprobarDesde letraMayuscula resto k ↔
  k ≤ j ∧ ∃ c, resto !! (j - k) = Some c ∧ [c] = letraMayuscula.
Proof.
  revert k. induction resto as [|c resto IH]; intros k; simpl.
  - split; [by intros ?%elem_of_nil | by intros (_ & ? & ? & _)].
  - assert (Hresto : j ∈ comprobarDesde letraMayuscula resto (S k) ↔
                     S k ≤ j ∧ ∃ c', (c :: resto) !! (j - k) = Some c'
                                      ∧ [c'] = letraMayuscula).
    { rewrite IH. split; intros (Hle & c' & Hc' & Heq); split; try done;
        exists c'; split; try done;
        replace (j - k) with (S (j - S k)) in * by lia; done. }
    case_decide as Hc.
    + rewrite elem_of_cons, Hresto. split.
      * intros [->|(Hle & c' & Hc' & Heq)].
        -- split; [lia|]. exists c. by rewrite Nat.sub_diag.
        -- split; [lia|]. by exists c'.
      * intros (Hle & c' & Hc' & Heq).
        destruct (decide (j = k)) as [->|Hne]; [by left | right].
        split; [lia|]. by exists c'.
    + rewrite Hresto. split.
      * intros (Hle & c' & Hc' & Heq). split; [lia|]. by exists c'.
      * intros (Hle & c' & Hc' & Heq).
        destruct (decide (j = k)) as [->|Hne].
        -- rewrite Nat.sub_diag in Hc'. simpl in Hc'. congruence.
        -- split; [lia|]. by exists c'.
Qed.

Lemma elem_of_comprobarLetra letra palabra j :
  j ∈ comprobarLetra letra palabra ↔
  ∃ c, palabra !! j = Some c ∧ [c] = toUpperCase letra.
Proof.
  unfold comprobarLetra. rewrite elem_of_comprobarDesde, Nat.sub_0_r.
  split; [by intros [_ ?] | intros ?; split; [lia | done]].
Qed.

Lemma comprobarLetra_cota letra palabra j :
  j ∈ comprobarLetra letra palabra → j < length palabra.
Proof.
  intros (c & Hc & _)%elem_of_comprobarLetra. by eapply lookup_lt_Some.
Qed.

(** ** Code units: the alphabet, white space, upper case *)

Lemma letraAceptada_spec c :
  letraAceptada c = true ↔
  (97 ≤ c ≤ 122 ∨ 65 ≤ c ≤ 90 ∨
   c ∈ [241; 209; 225; 233; 237; 243; 250; 193; 201; 205; 211; 218])%N.
Proof.
  unfold letraAceptada.
  rewrite !orb_true_iff, !andb_true_iff, !N.leb_le, bool_decide_eq_true.
  tauto.
Qed.

Lemma esEspacio_spec c :
  esEspacio c = true ↔
  (c ∈ [9; 10; 11; 12; 13; 32; 160; 5760; 8232; 8233; 8239; 8287; 12288;
        65279] ∨ 8192 ≤ c ≤ 8202)%N.
Proof.
  unfold esEspacio.
  rewrite orb_true_iff, andb_true_iff, !N.leb_le, bool_decide_eq_true.
  tauto.
Qed.

Lemma letraAceptada_no_espacio c :
  letraAceptada c = true → esEspacio c = false.
Proof.
  intros H%letraAceptada_spec. apply not_true_is_false.
  intros H'%esEspacio_spec. set_unfold. lia.
Qed.

(** The upper case of an accepted letter is one code unit, again of the
    alphabet, and not the placeholder. *)
Lemma mayuscula_letra c :
  letraAceptada c = true →
  ∃ c', toUpperCase [c] = [c'] ∧ letraAceptada c' = true ∧ [c'] ≠ guion.
Proof.
  intros H%letraAceptada_spec. set_unfold in H.
  unfold toUpperCase, guion. cbn [mbind list_bind]. rewrite app_nil_r.
  unfold mayusculaUnidad.
  repeat match goal with
         | |- context [if ?b then _ else _] => destruct b eqn:?
         end;
    rewrite ?andb_true_iff, ?andb_false_iff, ?negb_true_iff, ?negb_false_iff,
      ?N.leb_le, ?N.leb_gt, ?N.eqb_eq, ?N.eqb_neq in *;
    try (exfalso; lia);
    (eexists; split; [reflexivity|]; split;
     [apply letraAceptada_spec; set_unfold; lia | intros [=]; lia]).
Qed.

(** ** [trim] *)

Lemma trimStart_nil s :
  trimStart s = [] ↔ Forall (λ c, esEspacio c = true) s.
Proof.
  induction s as [|c s IH]; simpl; [by split|].
  destruct (esEspacio c) eqn:Hc.
  - rewrite IH. split; [by constructor | by inversion 1].
  - split; [done | inversion 1; congruence].
Qed.

Lemma trimStart_espacios s :
  Forall (λ c, esEspacio c = true) (trimStart s) → trimStart s = [].
Proof.
  induction s as [|c s IH]; simpl; [done|].
  destruct (esEspacio c) eqn:Hc; [done|]. inversion 1; congruence.
Qed.

Lemma reverse_eq_nil {A} (l : list A) : reverse l = [] ↔ l = [].
Proof.
  split; [|by intros ->].
  intros H. apply (f_equal length) in H. rewrite length_reverse in H.
  by destruct l.
Qed.

Lemma forallb_Forall {A} (f : A → bool) (l : list A) :
  forallb f l = true ↔ Forall (λ x, f x = true) l.
Proof.
  induction l as [|x l IH]; simpl; [by split|].
  rewrite andb_true_iff, IH. split; [intros []; by constructor | by inversion 1].
Qed.

Lemma trim_nil s : trim s = [] ↔ forallb esEspacio s = true.
Proof.
  unfold trim, trimEnd.
  rewrite reverse_eq_nil, trimStart_nil, Forall_reverse, forallb_Forall.
  split.
  - intros H. apply trimStart_nil. by apply trimStart_espacios.
  - intros H. apply trimStart_nil in H. rewrite H. constructor.
Qed.

(** ** [validarInput] *)

Lemma validarInput_valido input :
  valido (validarInput input) = true ↔
  ∃ c, input = [c] ∧ letraAceptada c = true.
Proof.
  unfold validarInput. split.
  - repeat case_match; simpl; try done. intros _.
    destruct input as [|c [|c' input]]; simpl in *.
    + done.
    + exists c. split; [done|]. by destruct (letraAceptada c).
    + rewrite bool_decide_eq_false in *. simpl in *. lia.
  - intros (c & -> & Hc).
    assert (Hesp : esEspacio c = false) by by apply letraAceptada_no_espacio.
    assert (Htrim : trim [c] ≠ []).
    { rewrite trim_nil. simpl. rewrite Hesp. done. }
    rewrite (bool_decide_eq_false_2 ([c] = [])) by done.
    rewrite (bool_decide_eq_false_2 (trim [c] = [])) by done.
    cbn [orb]. rewrite (bool_decide_eq_false_2 (1 < length [c])) by (simpl; lia).
    unfold pruebaLetra. by rewrite Hc.
Qed.

Lemma validarInput_mayuscula input :
  valido (validarInput input) = true →
  ∃ c, toUpperCase input = [c] ∧ letraAceptada c = true ∧ [c] ≠ guion.
Proof.
  intros (c & -> & Hc)%validarInput_valido. by apply mayuscula_letra.
Qed.

(** ** The cases of [procesarLetra] *)

Lemma procesarLetra_terminado input e :
  juegoTerminado e = true → procesarLetra input e = (e, None).
Proof. intros H. unfold procesarLetra. by rewrite H. Qed.

Lemma procesarLetra_rechazada input e :
  juegoTerminado e = false → valido (validarInput input) = false →
  procesarLetra input e = (e, Some (mensaje (validarInput input))).
Proof. intros H1 H2. unfold procesarLetra. by rewrite H1, H2. Qed.

Lemma procesarLetra_usada input e :
  juegoTerminado e = false → valido (validarInput input) = true →
  toUpperCase input ∈ letrasUsadas e →
  procesarLetra input e = (e, Some avisoYaUsada).
Proof.
  intros H1 H2 H3. unfold procesarLetra. rewrite H1, H2. simpl.
  by rewrite decide_True.
Qed.

Lemma procesarLetra_acierto input e :
  juegoTerminado e = false → valido (validarInput input) = true →
  toUpperCase input ∉ letrasUsadas e →
  comprobarLetra input (palabraSecreta e) ≠ [] →
  procesarLetra input e =
    let e2 := acierto input (comprobarLetra input (palabraSecreta e)) e in
    ((if comprobarVictoria (letrasDescubiertas e2)
      then finalizarJuego true e2 else e2), None).
Proof.
  intros H1 H2 H3 H4. unfold procesarLetra. rewrite H1, H2. simpl.
  rewrite decide_False by done.
  rewrite bool_decide_eq_true_2.
  - by case_match.
  - destruct (comprobarLetra input (palabraSecreta e)); [done | simpl; lia].
Qed.

Lemma procesarLetra_fallo input e :
  juegoTerminado e = false → valido (validarInput input) = true →
  toUpperCase input ∉ letrasUsadas e →
  comprobarLetra input (palabraSecreta e) = [] →
  procesarLetra input e =
    ((if bool_decide (MAX_INTENTOS ≤ S (intentosFallidos e))
      then finalizarJuego false (fallo input e) else fallo input e), None).
Proof.
  intros H1 H2 H3 H4. unfold procesarLetra. rewrite H1, H2. simpl.
  rewrite decide_False by done. rewrite H4. simpl.
  by case_match.
Qed.

(** The five ways a call can go. *)
Lemma procesarLetra_casos input e :
  (juegoTerminado e = true ∧ procesarLetra input e = (e, None))
  ∨ (juegoTerminado e = false ∧ valido (validarInput input) = false
     ∧ procesarLetra input e = (e, Some (mensaje (validarInput input))))
  ∨ (juegoTerminado e = false ∧ valido (validarInput input) = true
     ∧ toUpperCase input ∈ letrasUsadas e
     ∧ procesarLetra input e = (e, Some avisoYaUsada))
  ∨ (juegoTerminado e = false ∧ valido (validarInput input) = true
     ∧ (toUpperCase input ∉ letrasUsadas e)
     ∧ (comprobarLetra input (palabraSecreta e) ≠ [])
     ∧ procesarLetra input e =
         ((let e2 := acierto input (comprobarLetra input (palabraSecreta e)) e in
           if comprobarVictoria (letrasDescubiertas e2)
           then finalizarJuego true e2 else e2), None))
  ∨ (juegoTerminado e = false ∧ valido (validarInput input) = true
     ∧ (toUpperCase input ∉ letrasUsadas e)
     ∧ (comprobarLetra input (palabraSecreta e) = [])
     ∧ procesarLetra input e =
         ((if bool_decide (MAX_INTENTOS ≤ S (intentosFallidos e))
           then finalizarJuego false (fallo input e) else fallo input e),
          None)).
Proof.
  destruct (juegoTerminado e) eqn:Ht.
  { left. split; [done|]. by apply procesarLetra_terminado. }
  destruct (valido (validarInput input)) eqn:Hv.
  2: { right; left. split_and!; try done. by apply procesarLetra_rechazada. }
  destruct (decide (toUpperCase input ∈ letrasUsadas e)) as [Hu|Hu].
  { right; right; left. split_and!; try done. by apply procesarLetra_usada. }
  destruct (decide (comprobarLetra input (palabraSecreta e) = [])) as [Hi|Hi].
  - do 4 right. split_and!; try done. by apply procesarLetra_fallo.
  - do 3 right; left. split_and!; try done. by apply procesarLetra_acierto.
Qed.

(** ** The invariant *)

Lemma Inv_inicial cl : Inv (estadoInicial cl).
Proof. split; simpl; try done. unfold MAX_INTENTOS. lia. Qed.

Lemma leer_crearGuiones palabra i :
  i < length palabra → leer (crearGuiones palabra) i = Some guion.
Proof.
  intros H. unfold leer, crearGuiones, rellenar.
  by rewrite lookup_replicate_2.
Qed.

Lemma length_crearGuiones palabra :
  length (crearGuiones palabra) = length palabra.
Proof. unfold crearGuiones, rellenar. apply length_replicate. Qed.

Lemma Inv_mostrarError e : Inv e → Inv (mostrarError e).
Proof. intros []. by split. Qed.

Lemma Inv_solicitarPalabras theme e : Inv e → Inv (solicitarPalabras theme e).1.
Proof. intros []. by split. Qed.

Lemma Inv_recibirPalabras carga r e : Inv e → Inv (recibirPalabras carga r e).
Proof.
  intros He. unfold recibirPalabras.
  pose proof (Inv_mostrarError e He).
  destruct carga as [palabras|]; [|done].
  destruct (obtenerPalabraAleatoria _ _) as [palabra|]; [|done].
  split; simpl; try done.
  - apply length_crearGuiones.
  - intros _. unfold MAX_INTENTOS. lia.
  - intros _ i c Hc. rewrite leer_crearGuiones by by eapply lookup_lt_Some.
    rewrite decide_False; [done | apply not_elem_of_empty].
Qed.

Lemma length_split s : length (split s) = length s.
Proof. unfold split. apply length_fmap. Qed.

Lemma decide_usadas {T : Type} (x letra : list N) (usadas : gset (list N))
    (a b : T) :
  x ≠ letra →
  (if decide (x ∈ {[ letra ]} ∪ usadas) then a else b) =
  (if decide (x ∈ usadas) then a else b).
Proof.
  intros Hne. destruct (decide (x ∈ usadas)) as [Hx|Hx].
  - rewrite decide_True; [done|]. apply elem_of_union. by right.
  - rewrite decide_False; [done|].
    intros [Hs%elem_of_singleton|?]%elem_of_union; done.
Qed.

Lemma Inv_acierto input e :
  Inv e → juegoTerminado e = false →
  Inv (acierto input (comprobarLetra input (palabraSecreta e)) e).
Proof.
  intros [Hlen Hint Hex Hcota Hcel] Ht. split; simpl; try done.
  - rewrite length_revelar; [done|].
    intros i Hi%comprobarLetra_cota. lia.
  - intros _ i c Hc. rewrite leer_revelar.
    destruct (decide (i ∈ comprobarLetra input (palabraSecreta e))) as [Hi|Hi].
    + apply elem_of_comprobarLetra in Hi as (c' & Hc' & Heq).
      assert (c' = c) as -> by congruence.
      rewrite decide_True; [by rewrite Heq|].
      apply elem_of_union. left. by apply elem_of_singleton.
    + assert (Hne : [c] ≠ toUpperCase input).
      { intros Heq. apply Hi, elem_of_comprobarLetra. by exists c. }
      by rewrite (Hcel Ht i c Hc), decide_usadas.
Qed.

Lemma Inv_fallo input e :
  Inv e → juegoTerminado e = false →
  comprobarLetra input (palabraSecreta e) = [] →
  S (intentosFallidos e) < MAX_INTENTOS →
  Inv (fallo input e).
Proof.
  intros [Hlen Hint Hex Hcota Hcel] Ht Hvacio Hmenos. split; simpl; try done.
  - rewrite length_app. simpl. lia.
  - intros _ i c Hc.
    assert (Hne : [c] ≠ toUpperCase input).
    { intros Heq.
      assert (i ∈ comprobarLetra input (palabraSecreta e)) as Hi
        by (apply elem_of_comprobarLetra; by exists c).
      rewrite Hvacio in Hi. by apply elem_of_nil in Hi. }
    by rewrite (Hcel Ht i c Hc), decide_usadas.
Qed.

Lemma Inv_finalizarJuego victoria e :
  length (letrasDescubiertas e) = length (palabraSecreta e) →
  intentosFallidos e = length (letrasIncorrectas e) →
  Inv (finalizarJuego victoria e).
Proof.
  intros Hlen Hint. destruct victoria; split; simpl; try done.
  apply length_split.
Qed.

Lemma Inv_procesarLetra input e : Inv e → Inv (procesarLetra input e).1.
Proof.
  intros He.
  destruct (procesarLetra_casos input e)
    as [(Ht & ->)|[(Ht & Hv & ->)|[(Ht & Hv & Hu & ->)
       |[(Ht & Hv & Hu & Hi & ->)|(Ht & Hv & Hu & Hi & ->)]]]];
    cbn [fst]; cbv zeta; try done.
  - pose proof (Inv_acierto input e He Ht) as He2.
    case_match; [|done].
    apply Inv_finalizarJuego; by destruct He2.
  - case_bool_decide as Hmax.
    + destruct He as [Hlen Hint _ _ _].
      apply Inv_finalizarJuego; simpl; [done|].
      rewrite length_app. simpl. lia.
    + apply Inv_fallo; try done. lia.
Qed.

Lemma alcanzable_Inv e : alcanzable e → Inv e.
Proof.
  induction 1 as [cl|theme e _ IH|carga r e _ IH|input e _ IH].
  - apply Inv_inicial.
  - by apply Inv_solicitarPalabras.
  - by apply Inv_recibirPalabras.
  - by apply Inv_procesarLetra.
Qed.

Lemma alc_inicio theme red r e :
  alcanzable e → alcanzable (inicializarJuego theme red r e).
Proof.
  intros He. unfold inicializarJuego.
  apply (alc_recibir _ r (solicitarPalabras theme e).1).
  by apply alc_solicitar.
Qed.

Lemma alcanzable_jugar entradas e : alcanzable e → alcanzable (jugar entradas e).
Proof.
  unfold jugar. revert e.
  induction entradas as [|input entradas IH]; intros e He; simpl; [done|].
  by apply IH, alc_letra.
Qed.

Lemma alcanzable_rondaSol7 : alcanzable rondaSol7.
Proof. apply alcanzable_jugar, alc_inicio, alc_inicial. Qed.

(** Splits a goal made of conjunctions and equivalences between simple
    facts and closes the pieces. *)
Ltac desglosar :=
  repeat match goal with
         | |- _ ∧ _ => split
         | |- _ ↔ _ => split
         | |- ¬ _ => intros ?
         | |- ?P → _ => intros ?
         | H : _ ∧ _ |- _ => destruct H
         | H : _ ∨ _ |- _ => destruct H
         end;
  try done; try lia; try (exfalso; lia); try congruence;
  try (by left); try (by right); auto.

(** ** The length of the revealed word *)

(** C2: in every state the page can reach, after [inicializarJuego] and
    after every call of [procesarLetra] (the one that ends the round
    included), [letrasDescubiertas] is as long as [palabraSecreta]. *)
Theorem longitud_revelado e :
  alcanzable e →
  (∀ theme red r,
     let e' := inicializarJuego theme red r e in
     length (letrasDescubiertas e') = length (palabraSecreta e'))
  ∧ (∀ input,
     let e' := (procesarLetra input e).1 in
     length (letrasDescubiertas e') = length (palabraSecreta e')).
Proof.
  intros He. split.
  - intros theme red r. by apply alcanzable_Inv, alc_inicio.
  - intros input. by apply alcanzable_Inv, alc_letra.
Qed.

Lemma longitud_revelado_testigo :
  alcanzable rondaSol7 ∧
  length (letrasDescubiertas (procesarLetra (deAscii "h") rondaSol7).1) =
  length (palabraSecreta (procesarLetra (deAscii "h") rondaSol7).1).
Proof.
  split; [exact alcanzable_rondaSol7|].
  exact (proj2 (longitud_revelado rondaSol7 alcanzable_rondaSol7) (deAscii "h")).
Defined.

(** ** The round as a state machine *)

(** C1, as the code has it: after an accepted letter in a running round,
    the round is won exactly when the letter occurs in the word and no
    placeholder is left; it is lost exactly when [intentosFallidos] reaches
    [MAX_INTENTOS] = 8, which is when the letter is the eighth wrong one;
    won and lost exclude each other, and once the round is over
    [procesarLetra] leaves the state as it is. *)
Theorem ronda_maquina_de_estados input e :
  alcanzable e →
  juegoTerminado e = false →
  valido (validarInput input) = true →
  toUpperCase input ∉ letrasUsadas e →
  let e' := (procesarLetra input e).1 in
  (ganada e' = true ↔
     comprobarLetra input (palabraSecreta e) ≠ []
     ∧ comprobarVictoria (letrasDescubiertas e') = true)
  ∧ (perdida e' = true ↔ intentosFallidos e' = MAX_INTENTOS)
  ∧ (perdida e' = true ↔
       comprobarLetra input (palabraSecreta e) = []
       ∧ length (letrasIncorrectas e') = 8)
  ∧ MAX_INTENTOS = 8
  ∧ (juegoTerminado e' = true ↔ ganada e' = true ∨ perdida e' = true)
  ∧ ¬ (ganada e' = true ∧ perdida e' = true)
  ∧ (juegoTerminado e' = true → ∀ otra, procesarLetra otra e' = (e', None)).
Proof.
  intros He Ht Hv Hu e'.
  pose proof (alcanzable_Inv e He) as [Hlen Hint Hex Hcota Hcel].
  specialize (Hcota Ht). unfold MAX_INTENTOS in *.
  assert (Hterm : juegoTerminado e' = true →
                  ∀ otra, procesarLetra otra e' = (e', None))
    by (intros H otra; by apply procesarLetra_terminado).
  destruct (decide (comprobarLetra input (palabraSecreta e) = [])) as [Hi|Hi].
  - subst e'. rewrite procesarLetra_fallo in * by done. cbn [fst] in *.
    case_bool_decide as Hmax;
      unfold ganada, perdida, MAX_INTENTOS in *; simpl in *; rewrite ?Ht in *;
      rewrite ?length_app; simpl; desglosar.
  - subst e'. rewrite procesarLetra_acierto in * by done.
    cbv zeta in *. cbn [fst] in *.
    destruct (comprobarVictoria _) eqn:Hvic;
      unfold ganada, perdida in *; simpl in *; rewrite ?Ht in *; simpl in *;
      desglosar.
Qed.

Lemma ronda_maquina_de_estados_testigo :
  alcanzable rondaSol7 ∧
  (perdida (procesarLetra (deAscii "h") rondaSol7).1 = true ↔
   intentosFallidos (procesarLetra (deAscii "h") rondaSol7).1 = MAX_INTENTOS).
Proof.
  split; [exact alcanzable_rondaSol7|].
  refine (proj1 (proj2 (ronda_maquina_de_estados (deAscii "h") rondaSol7
                          alcanzable_rondaSol7 _ _ _))).
  - vm_compute. reflexivity.
  - vm_compute. reflexivity.
  - vm_compute. intros H. discriminate H.
Defined.

(** The claim as the specification words it fails on the losing letter:
    on "SOL", after seven wrong letters, an eighth wrong one leaves no
    placeholder in [letrasDescubiertas], and the round is lost, not won. *)
Lemma sin_guiones_no_es_victoria :
  alcanzable rondaSol7
  ∧ juegoTerminado rondaSol7 = false
  ∧ comprobarVictoria
      (letrasDescubiertas (procesarLetra (deAscii "h") rondaSol7).1) = true
  ∧ ganada (procesarLetra (deAscii "h") rondaSol7).1 = false
  ∧ perdida (procesarLetra (deAscii "h") rondaSol7).1 = true
  ∧ ¬ (ganada (procesarLetra (deAscii "h") rondaSol7).1 = true ↔
       comprobarVictoria
         (letrasDescubiertas (procesarLetra (deAscii "h") rondaSol7).1) = true).
Proof.
  assert (Hv : comprobarVictoria
      (letrasDescubiertas (procesarLetra (deAscii "h") rondaSol7).1) = true)
    by (vm_compute; reflexivity).
  assert (Hg : ganada (procesarLetra (deAscii "h") rondaSol7).1 = false)
    by (vm_compute; reflexivity).
  split_and!.
  - exact alcanzable_rondaSol7.
  - vm_compute; reflexivity.
  - exact Hv.
  - exact Hg.
  - vm_compute; reflexivity.
  - intros [_ H]. specialize (H Hv). rewrite Hg in H. discriminate H.
Qed.

(** ** A letter that the word does not have *)

(** C3, as the code has it: an accepted letter with no occurrence adds
    exactly one to [intentosFallidos]; [letrasDescubiertas] stays as it
    was unless the count thereby reaches [MAX_INTENTOS], and then it
    becomes the letters of the secret word. *)
Theorem fallo_cuenta_un_intento input e :
  juegoTerminado e = false →
  valido (validarInput input) = true →
  toUpperCase input ∉ letrasUsadas e →
  comprobarLetra input (palabraSecreta e) = [] →
  let e' := (procesarLetra input e).1 in
  intentosFallidos e' = S (intentosFallidos e)
  ∧ palabraSecreta e' = palabraSecreta e
  ∧ (S (intentosFallidos e) < MAX_INTENTOS →
     letrasDescubiertas e' = letrasDescubiertas e ∧ juegoTerminado e' = false)
  ∧ (MAX_INTENTOS ≤ S (intentosFallidos e) →
     letrasDescubiertas e' = split (palabraSecreta e)
     ∧ juegoTerminado e' = true).
Proof.
  intros Ht Hv Hu Hi e'. subst e'.
  rewrite procesarLetra_fallo by done. cbn [fst].
  case_bool_decide as Hmax; simpl; desglosar.
Qed.

Lemma fallo_cuenta_un_intento_testigo :
  intentosFallidos (procesarLetra (deAscii "h") rondaSol7).1 =
  S (intentosFallidos rondaSol7).
Proof.
  refine (proj1 (fallo_cuenta_un_intento (deAscii "h") rondaSol7 _ _ _ _)).
  - vm_compute. reflexivity.
  - vm_compute. reflexivity.
  - vm_compute. intros H. discriminate H.
  - vm_compute. reflexivity.
Defined.

(** On the losing letter [letrasDescubiertas] does change. *)
Lemma fallo_final_cambia_revelado :
  juegoTerminado rondaSol7 = false
  ∧ valido (validarInput (deAscii "h")) = true
  ∧ comprobarLetra (deAscii "h") (palabraSecreta rondaSol7) = []
  ∧ intentosFallidos (procesarLetra (deAscii "h") rondaSol7).1 =
      S (intentosFallidos rondaSol7)
  ∧ letrasDescubiertas (procesarLetra (deAscii "h") rondaSol7).1 ≠
      letrasDescubiertas rondaSol7.
Proof.
  split_and!; try (vm_compute; reflexivity).
  vm_compute. intros H. discriminate H.
Qed.

(** ** A letter that the word has *)

Lemma lookup_asignar_ne {A} (a : list (option A)) i v j :
  i ≠ j → j < length a → asignar a i v !! j = a !! j.
Proof.
  intros Hne Hj. unfold asignar. case_decide.
  - by rewrite list_lookup_insert_ne.
  - by rewrite lookup_app_l.
Qed.

Lemma lookup_revelar_otro a letra indices j :
  j ∉ indices → j < length a →
  revelarLetras a letra indices !! j = a !! j.
Proof.
  unfold revelarLetras. revert a.
  induction indices as [|k indices IH]; intros a Hj Hlt; cbn [foldl]; [done|].
  apply not_elem_of_cons in Hj as [Hk Hj].
  rewrite IH; [|done|rewrite length_asignar; lia].
  by apply lookup_asignar_ne.
Qed.

(** C4: an accepted letter that occurs in the word leaves
    [intentosFallidos] as it was, and in [letrasDescubiertas] the positions
    where the word has the upper-cased letter, all of them and no other,
    pass from the placeholder to that letter. *)
Theorem acierto_revela_posiciones input e :
  alcanzable e →
  juegoTerminado e = false →
  valido (validarInput input) = true →
  toUpperCase input ∉ letrasUsadas e →
  comprobarLetra input (palabraSecreta e) ≠ [] →
  let e' := (procesarLetra input e).1 in
  let indices := comprobarLetra input (palabraSecreta e) in
  intentosFallidos e' = intentosFallidos e
  ∧ letrasIncorrectas e' = letrasIncorrectas e
  ∧ palabraSecreta e' = palabraSecreta e
  ∧ toUpperCase input ≠ guion
  ∧ length (letrasDescubiertas e') = length (letrasDescubiertas e)
  ∧ ∀ i,
      (i ∈ indices ↔
         ∃ c, palabraSecreta e !! i = Some c ∧ [c] = toUpperCase input)
      ∧ (i ∈ indices →
           letrasDescubiertas e !! i = Some (Some guion)
           ∧ letrasDescubiertas e' !! i = Some (Some (toUpperCase input)))
      ∧ (i ∉ indices →
           letrasDescubiertas e' !! i = letrasDescubiertas e !! i).
Proof.
  intros He Ht Hv Hu Hi e' indices.
  pose proof (alcanzable_Inv e He) as [Hlen Hint Hex Hcota Hcel].
  destruct (validarInput_mayuscula input Hv) as (l & Hl & _ & Hguion).
  assert (Hcotas : ∀ i, i ∈ indices → i < length (letrasDescubiertas e)).
  { intros i Hin%comprobarLetra_cota. lia. }
  assert (Hdesc : letrasDescubiertas e' =
                  revelarLetras (letrasDescubiertas e) input indices).
  { subst e'. rewrite procesarLetra_acierto by done. cbv zeta. cbn [fst].
    by case_match. }
  assert (Hresto : intentosFallidos e' = intentosFallidos e
                   ∧ letrasIncorrectas e' = letrasIncorrectas e
                   ∧ palabraSecreta e' = palabraSecreta e).
  { subst e'. rewrite procesarLetra_acierto by done. cbv zeta. cbn [fst].
    by case_match. }
  destruct Hresto as (? & ? & ?).
  split_and!; try done.
  - by rewrite Hl.
  - rewrite Hdesc. by apply length_revelar.
  - intros i. split_and!.
    + apply elem_of_comprobarLetra.
    + intros Hin. pose proof Hin as (c & Hc & Heq)%elem_of_comprobarLetra.
      split.
      * apply lookup_de_leer. rewrite (Hcel Ht i c Hc).
        rewrite decide_False; [done | by rewrite Heq].
      * apply lookup_de_leer. rewrite Hdesc, leer_revelar.
        by rewrite decide_True.
    + intros Hnin. rewrite Hdesc.
      destruct (decide (i < length (letrasDescubiertas e))) as [Hlt|Hge].
      * by apply lookup_revelar_otro.
      * rewrite !lookup_ge_None_2; [done | lia |].
        rewrite length_revelar by done. lia.
Qed.

Lemma acierto_revela_posiciones_testigo :
  alcanzable rondaSol7 ∧
  intentosFallidos (procesarLetra (deAscii "o") rondaSol7).1 =
  intentosFallidos rondaSol7.
Proof.
  split; [exact alcanzable_rondaSol7|].
  refine (proj1 (acierto_revela_posiciones (deAscii "o") rondaSol7
                   alcanzable_rondaSol7 _ _ _ _)).
  - vm_compute. reflexivity.
  - vm_compute. reflexivity.
  - vm_compute. intros H. discriminate H.
  - vm_compute. intros H. discriminate H.
Defined.

(** ** A letter used before *)

Lemma usadas_crecen letra input e :
  letra ∈ letrasUsadas e → letra ∈ letrasUsadas (procesarLetra input e).1.
Proof.
  intros Hin.
  destruct (procesarLetra_casos input e)
    as [(Ht & ->)|[(Ht & Hv & ->)|[(Ht & Hv & Hu & ->)
       |[(Ht & Hv & Hu & Hi & ->)|(Ht & Hv & Hu & Hi & ->)]]]];
    cbn [fst]; cbv zeta; try done.
  - case_match; simpl; apply elem_of_union; by right.
  - case_match; simpl; apply elem_of_union; by right.
Qed.

Lemma usadas_crecen_jugar letra entradas e :
  letra ∈ letrasUsadas e → letra ∈ letrasUsadas (jugar entradas e).
Proof.
  unfold jugar. revert e.
  induction entradas as [|input entradas IH]; intros e He; simpl; [done|].
  by apply IH, usadas_crecen.
Qed.

Lemma procesarLetra_registra input e :
  juegoTerminado e = false → valido (validarInput input) = true →
  toUpperCase input ∈ letrasUsadas (procesarLetra input e).1.
Proof.
  intros Ht Hv.
  destruct (procesarLetra_casos input e)
    as [(Ht' & _)|[(_ & Hv' & _)|[(_ & _ & Hu & ->)
       |[(_ & _ & Hu & Hi & ->)|(_ & _ & Hu & Hi & ->)]]]];
    cbn [fst]; cbv zeta; try congruence.
  - case_match; simpl; apply elem_of_union; left; by apply elem_of_singleton.
  - case_match; simpl; apply elem_of_union; left; by apply elem_of_singleton.
Qed.

(** C5: once a letter has been accepted in a round, a later call with the
    same letter (in either case) while the round runs raises the
    already-used alert and leaves the whole state, [intentosFallidos],
    [letrasDescubiertas] and [letrasUsadas] included, as it was. *)
Theorem letra_repetida_sin_efecto primera entradas segunda e :
  juegoTerminado e = false →
  valido (validarInput primera) = true →
  valido (validarInput segunda) = true →
  toUpperCase segunda = toUpperCase primera →
  let e2 := jugar (primera :: entradas) e in
  juegoTerminado e2 = false →
  procesarLetra segunda e2 = (e2, Some avisoYaUsada).
Proof.
  intros Ht Hv1 Hv2 Heq e2 Ht2.
  apply procesarLetra_usada; try done.
  rewrite Heq. subst e2. unfold jugar. cbn [foldl].
  apply usadas_crecen_jugar. by apply procesarLetra_registra.
Qed.

Lemma letra_repetida_sin_efecto_testigo :
  procesarLetra (deAscii "A") (jugar (letras ["a"; "s"]) rondaSol) =
  (jugar (letras ["a"; "s"]) rondaSol, Some avisoYaUsada).
Proof.
  refine (letra_repetida_sin_efecto (deAscii "a") (letras ["s"]) (deAscii "A")
            rondaSol _ _ _ _ _).
  - vm_compute. reflexivity.
  - vm_compute. reflexivity.
  - vm_compute. reflexivity.
  - vm_compute. reflexivity.
  - vm_compute. reflexivity.
Defined.

(** ** The losing letter *)

Lemma lookup_split s i : split s !! i = (λ c, Some [c]) <$> s !! i.
Proof. unfold split. apply list_lookup_fmap. Qed.

(** C6: the wrong letter that brings [intentosFallidos] to [MAX_INTENTOS]
    ends the round as lost, and [letrasDescubiertas] becomes the secret
    word letter by letter: every position holds its true letter, those
    that held one before keep it. *)
Theorem derrota_revela_palabra input e :
  alcanzable e →
  juegoTerminado e = false →
  valido (validarInput input) = true →
  toUpperCase input ∉ letrasUsadas e →
  comprobarLetra input (palabraSecreta e) = [] →
  S (intentosFallidos e) = MAX_INTENTOS →
  let e' := (procesarLetra input e).1 in
  intentosFallidos e' = MAX_INTENTOS
  ∧ perdida e' = true
  ∧ ganada e' = false
  ∧ palabraSecreta e' = palabraSecreta e
  ∧ letrasDescubiertas e' = split (palabraSecreta e)
  ∧ (∀ i c, palabraSecreta e !! i = Some c →
            letrasDescubiertas e' !! i = Some (Some [c]))
  ∧ (∀ i, letrasDescubiertas e !! i ≠ Some (Some guion) →
          letrasDescubiertas e' !! i = letrasDescubiertas e !! i).
Proof.
  intros He Ht Hv Hu Hi Hmax e'.
  pose proof (alcanzable_Inv e He) as [Hlen Hint Hex Hcota Hcel].
  assert (He' : e' = finalizarJuego false (fallo input e)).
  { subst e'. rewrite procesarLetra_fallo by done. cbn [fst].
    rewrite bool_decide_eq_true_2; [done | lia]. }
  rewrite He'. unfold perdida, ganada. simpl.
  split_and!; try done.
  - intros i c Hc. by rewrite lookup_split, Hc.
  - intros i Hno. rewrite lookup_split.
    destruct (palabraSecreta e !! i) as [c|] eqn:Hc; simpl.
    + pose proof (Hcel Ht i c Hc) as Hleer.
      apply lookup_de_leer in Hleer. rewrite Hleer in *.
      destruct (decide ([c] ∈ letrasUsadas e)); [done | congruence].
    + apply lookup_ge_None_1 in Hc. symmetry. apply lookup_ge_None_2. lia.
Qed.

Lemma derrota_revela_palabra_testigo :
  alcanzable rondaSol7 ∧
  letrasDescubiertas (procesarLetra (deAscii "h") rondaSol7).1 =
  split (palabraSecreta rondaSol7).
Proof.
  split; [exact alcanzable_rondaSol7|].
  refine (proj1 (proj2 (proj2 (proj2 (proj2
            (derrota_revela_palabra (deAscii "h") rondaSol7
               alcanzable_rondaSol7 _ _ _ _ _)))))).
  - vm_compute. reflexivity.
  - vm_compute. reflexivity.
  - vm_compute. intros H. discriminate H.
  - vm_compute. reflexivity.
  - vm_compute. reflexivity.
Defined.

(** Scenario B of the specification: eight letters that "SOL" does not
    have, and the round is lost with the word disclosed. *)
Example escenario_sol :
  let e := jugar (letras ["a"; "b"; "c"; "d"; "e"; "f"; "g"; "h"]) rondaSol in
  perdida e = true ∧ letrasDescubiertas e = split (deAscii "SOL").
Proof. vm_compute. split; reflexivity. Qed.

(** Scenario A: "GATO" guessed letter by letter. *)
Example escenario_gato :
  letrasDescubiertas (jugar (letras ["G"]) rondaGato) =
    [Some (deAscii "G"); Some guion; Some guion; Some guion]
  ∧ ganada (jugar (letras ["G"; "A"; "T"; "O"]) rondaGato) = true
  ∧ letrasDescubiertas (jugar (letras ["G"; "A"; "T"; "O"]) rondaGato) =
      split (deAscii "GATO").
Proof. vm_compute. split_and!; reflexivity. Qed.

(** ** A start that fails *)

(** A document that is missing, or whose list of words is empty, makes
    [inicializarJuego] fail. *)
Lemma corpus_ausente_o_vacio_falla theme red r e :
  (∀ lista, red (archivoDe (default (currentTheme e) theme))
            = Documento (Some lista) → lista = []) →
  inicioFalla theme red r e = true.
Proof.
  intros H. unfold inicioFalla, cargarPalabras.
  destruct (red _) as [| | | |[lista|]] eqn:Hred; try done.
  by rewrite (H lista eq_refl).
Qed.

(** C7, as the code has it: when [inicializarJuego] fails, the secret
    word, the revealed letters, the used and the wrong letters, the count
    of failed attempts and the end-of-round flag are those of the round
    before; [currentTheme] is already the theme that was asked for, and
    the result banner has lost its win or lose mark to the error. *)
Theorem inicio_fallido_conserva_ronda theme red r e :
  inicioFalla theme red r e = true →
  let e' := inicializarJuego theme red r e in
  palabraSecreta e' = palabraSecreta e
  ∧ letrasDescubiertas e' = letrasDescubiertas e
  ∧ letrasUsadas e' = letrasUsadas e
  ∧ intentosFallidos e' = intentosFallidos e
  ∧ juegoTerminado e' = juegoTerminado e
  ∧ letrasIncorrectas e' = letrasIncorrectas e
  ∧ currentTheme e' = default (currentTheme e) theme
  ∧ resultMessage e' =
      {| cl_win := false; cl_lose := false; cl_hidden := false |}.
Proof.
  intros H. unfold inicioFalla in H.
  unfold inicializarJuego, solicitarPalabras, recibirPalabras. cbv zeta.
  destruct (cargarPalabras _ _) as [palabras|]; [|done].
  by destruct (obtenerPalabraAleatoria _ _).
Qed.

Lemma inicio_fallido_conserva_ronda_testigo :
  palabraSecreta
    (inicializarJuego (Some (Cadena "musica")) redVacia sorteo0 rondaGatoGanada)
  = palabraSecreta rondaGatoGanada.
Proof.
  refine (proj1 (inicio_fallido_conserva_ronda (Some (Cadena "musica"))
                   redVacia sorteo0 rondaGatoGanada _)).
  vm_compute. reflexivity.
Defined.

(** Neither the theme of the round before nor its won mark survive a
    failed start. *)
Lemma inicio_fallido_cambia_tema :
  inicioFalla (Some (Cadena "musica")) redVacia sorteo0 rondaGatoGanada = true
  ∧ currentTheme rondaGatoGanada = Cadena "general"
  ∧ currentTheme
      (inicializarJuego (Some (Cadena "musica")) redVacia sorteo0
         rondaGatoGanada)
    = Cadena "musica"
  ∧ ganada rondaGatoGanada = true
  ∧ ganada
      (inicializarJuego (Some (Cadena "musica")) redVacia sorteo0
         rondaGatoGanada)
    = false
  ∧ inicializarJuego (Some (Cadena "musica")) redVacia sorteo0 rondaGatoGanada
    ≠ rondaGatoGanada.
Proof.
  split_and!; try (vm_compute; reflexivity).
  intros H. apply (f_equal currentTheme) in H. vm_compute in H. discriminate H.
Qed.

(** ** The source of words *)

Lemma indiceAleatorio_cota r n :
  num r < den r → 0 < n → indiceAleatorio r n < n.
Proof.
  intros Hr Hn. unfold indiceAleatorio.
  apply Nat.Div0.div_lt_upper_bound. nia.
Qed.

(** [cargarPalabras] hands over an empty list as it does any other. *)
Lemma cargarPalabras_acepta_vacio :
  cargarPalabras redVacia archivoPorDefecto = Devuelve (Some []).
Proof. reflexivity. Qed.

(** C8, as the code has it: [cargarPalabras] returns the list of the
    document, empty or not; on an empty list [obtenerPalabraAleatoria]
    throws a [TypeError] and returns nothing; on a non-empty list it takes
    one of the entries and returns its text in upper case (and throws if
    that entry has no text). The texts are taken within Latin-1, where
    [toUpperCase] is the case mapping of JavaScript. *)
Theorem fuente_de_palabras red archivo r lista :
  red archivo = Documento (Some lista) →
  listaLatina1 lista = true →
  num r < den r →
  cargarPalabras red archivo = Devuelve (Some lista)
  ∧ (lista = [] → obtenerPalabraAleatoria r (Some lista) = Lanza TypeError)
  ∧ (lista ≠ [] →
     ∃ entrada, entrada ∈ lista ∧
       obtenerPalabraAleatoria r (Some lista) =
         match item entrada with
         | Some texto => Devuelve (toUpperCase texto)
         | None => Lanza TypeError
         end).
Proof.
  intros Hred _ Hr. split_and!.
  - unfold cargarPalabras. by rewrite Hred.
  - by intros ->.
  - intros Hne.
    assert (Hn : 0 < length lista) by (destruct lista; [done | simpl; lia]).
    pose proof (indiceAleatorio_cota r _ Hr Hn) as Hi.
    destruct (lookup_lt_is_Some_2 _ _ Hi) as [entrada Hentrada].
    exists entrada. split; [by eapply list_elem_of_lookup_2|].
    unfold obtenerPalabraAleatoria. by rewrite Hentrada.
Qed.

Lemma fuente_de_palabras_testigo :
  cargarPalabras (redDe ["sol"; "gato"]) archivoPorDefecto =
  Devuelve (Some [ {| item := Some (deAscii "sol") |};
                   {| item := Some (deAscii "gato") |} ]).
Proof.
  refine (proj1 (fuente_de_palabras (redDe ["sol"; "gato"]) archivoPorDefecto
                   {| num := 1; den := 2 |} _ _ _ _)).
  - reflexivity.
  - vm_compute. reflexivity.
  - simpl. lia.
Defined.

(** ** Validation *)

(** A single blank is one character outside the alphabet, and two blanks
    are more than one character; both are reported as empty input. *)
Lemma espacio_se_clasifica_vacio :
  length (deAscii " ") = 1
  ∧ pruebaLetra (deAscii " ") = false
  ∧ motivo (validarInput (deAscii " ")) = Some Vacio
  ∧ motivo (validarInput (deAscii " ")) ≠ Some CaracterNoPermitido
  ∧ length (deAscii "  ") = 2
  ∧ motivo (validarInput (deAscii "  ")) = Some Vacio
  ∧ motivo (validarInput (deAscii "  ")) ≠ Some DemasiadoLargo.
Proof.
  split_and!; try (vm_compute; reflexivity);
    vm_compute; intros H; discriminate H.
Qed.

Lemma validarInput_casos input :
  validarInput input =
    if forallb esEspacio input then
      {| valido := false; mensaje := mensajeVacio |}
    else if bool_decide (1 < length input) then
      {| valido := false; mensaje := mensajeLargo |}
    else if negb (pruebaLetra input) then
      {| valido := false; mensaje := mensajeNoLetra |}
    else {| valido := true; mensaje := "" |}.
Proof.
  unfold validarInput. destruct (forallb esEspacio input) eqn:Hesp.
  - rewrite (bool_decide_eq_true_2 (trim input = [])) by (by apply trim_nil).
    by rewrite orb_true_r.
  - rewrite (bool_decide_eq_false_2 (input = []))
      by (intros ->; discriminate Hesp).
    rewrite (bool_decide_eq_false_2 (trim input = []))
      by (rewrite trim_nil; congruence).
    done.
Qed.

Lemma motivo_vacio :
  motivo {| valido := false; mensaje := mensajeVacio |} = Some Vacio.
Proof. reflexivity. Qed.

Lemma motivo_largo :
  motivo {| valido := false; mensaje := mensajeLargo |} = Some DemasiadoLargo.
Proof. reflexivity. Qed.

Lemma motivo_no_letra :
  motivo {| valido := false; mensaje := mensajeNoLetra |}
  = Some CaracterNoPermitido.
Proof. reflexivity. Qed.

Lemma motivo_valido : motivo {| valido := true; mensaje := "" |} = None.
Proof. reflexivity. Qed.

(** C9, as the code has it: [validarInput] depends on its argument alone.
    Input made of blanks only (the empty input among them) is reported as
    empty; other input of more than one code unit as too long; a single
    code unit that is neither a blank nor of the alphabet as not a letter;
    and a single letter of the alphabet, and nothing else, is valid. *)
Theorem validarInput_clasifica input :
  (motivo (validarInput input) = Some Vacio ↔ forallb esEspacio input = true)
  ∧ (motivo (validarInput input) = Some DemasiadoLargo ↔
       forallb esEspacio input = false ∧ 1 < length input)
  ∧ (motivo (validarInput input) = Some CaracterNoPermitido ↔
       ∃ c, input = [c] ∧ esEspacio c = false ∧ letraAceptada c = false)
  ∧ (valido (validarInput input) = true ↔
       ∃ c, input = [c] ∧ letraAceptada c = true)
  ∧ (valido (validarInput input) = true ↔ motivo (validarInput input) = None)
  ∧ motivo (validarInput (deAscii "5")) = Some CaracterNoPermitido
  ∧ motivo (validarInput (deAscii "ab")) = Some DemasiadoLargo
  ∧ motivo (validarInput (deAscii "")) = Some Vacio.
Proof.
  split_and!; [| | | apply validarInput_valido | |
               vm_compute; reflexivity ..].
  all: rewrite validarInput_casos.
  all: destruct (forallb esEspacio input) eqn:Hesp;
         [rewrite ?motivo_vacio; cbn [valido]|].
  all: try (destruct input as [|c [|c' resto]]; [discriminate Hesp | |];
            cbn [length pruebaLetra];
            [rewrite (bool_decide_eq_false_2 (1 < 1)) by lia;
             simpl in Hesp; rewrite andb_true_r in Hesp;
             destruct (letraAceptada c) eqn:Hletra; cbn [negb];
             rewrite ?motivo_no_letra, ?motivo_valido; cbn [valido]
            |rewrite bool_decide_eq_true_2 by lia;
             rewrite ?motivo_largo; cbn [valido]]).
  all: desglosar.
  all: try match goal with
           | H : ∃ _, _ |- _ => destruct H as (? & ? & ? & ?); simplify_eq
           | |- ∃ _, _ => exists c; by split_and!
           end.
  all: try congruence.
  all: simpl in Hesp; rewrite ?andb_true_r in Hesp; congruence.
Qed.

(** ** [revelarLetras] and the array it is given *)

Lemma paraCada_escribir indices (h : gmap nat (list (option (list N))))
    nuevo slots v :
  h !! nuevo = Some slots →
  paraCada indices (λ indice, escribir nuevo indice v) h =
  Some ((), <[nuevo := foldl (λ a indice, asignar a indice v) slots indices]> h).
Proof.
  revert h slots.
  induction indices as [|k indices IH]; intros h slots Hh; simpl.
  - unfold devolver. by rewrite insert_id.
  - unfold ligar, escribir at 1. rewrite Hh.
    rewrite (IH _ (asignar slots k v)) by apply lookup_insert_eq.
    by rewrite insert_insert_eq.
Qed.

Lemma lookup_revelar_en a letra indices j :
  j ∈ indices → leer (revelarLetras a letra indices) j = Some (toUpperCase letra).
Proof. intros H. rewrite leer_revelar. by rewrite decide_True. Qed.



Example revelarLetras_casa :
  revelarLetras arregloCasa (deAscii "s") [2] =
  [Some guion; Some (deAscii "A"); Some (deAscii "S"); Some (deAscii "A")].
Proof. reflexivity. Qed.

(** * More on the code *)

(** ** Upper case of the alphabet *)

Lemma mayusculaUnidad_fija c :
  (65 ≤ c ≤ 90 ∨ c ∈ [209; 193; 201; 205; 211; 218])%N →
  mayusculaUnidad c = [c].
Proof.
  intros H. set_unfold in H. unfold mayusculaUnidad.
  repeat match goal with
         | |- context [if ?b then _ else _] => destruct b eqn:?
         end;
    rewrite ?andb_true_iff, ?andb_false_iff, ?negb_true_iff, ?negb_false_iff,
      ?N.leb_le, ?N.leb_gt, ?N.eqb_eq, ?N.eqb_neq in *;
    try done; exfalso; lia.
Qed.

Lemma mayuscula_letra_fija c :
  letraAceptada c = true →
  ∃ c', toUpperCase [c] = [c'] ∧ letraMayuscula c' = true.
Proof.
  intros Hc. destruct (mayuscula_letra c Hc) as (c' & Hup & Hc' & _).
  exists c'. split; [done|]. unfold letraMayuscula. rewrite Hc'. simpl.
  apply bool_decide_eq_true.
  unfold toUpperCase. cbn [mbind list_bind]. rewrite app_nil_r.
  apply mayusculaUnidad_fija.
  apply letraAceptada_spec in Hc. set_unfold in Hc.
  unfold toUpperCase in Hup. cbn [mbind list_bind] in Hup.
  rewrite app_nil_r in Hup. unfold mayusculaUnidad in Hup.
  repeat match type of Hup with
         | context [if ?b then _ else _] => destruct b eqn:?
         end;
    rewrite ?andb_true_iff, ?andb_false_iff, ?negb_true_iff, ?negb_false_iff,
      ?N.leb_le, ?N.leb_gt, ?N.eqb_eq, ?N.eqb_neq in *;
    try (exfalso; lia); injection Hup as <-; set_unfold; lia.
Qed.

Lemma letraMayuscula_spec c :
  letraMayuscula c = true ↔ letraAceptada c = true ∧ toUpperCase [c] = [c].
Proof.
  unfold letraMayuscula. by rewrite andb_true_iff, bool_decide_eq_true.
Qed.

Lemma letraMayuscula_valida c :
  letraMayuscula c = true → valido (validarInput [c]) = true.
Proof.
  intros [Hc _]%letraMayuscula_spec. apply validarInput_valido. by exists c.
Qed.

Lemma letraMayuscula_no_guion c : letraMayuscula c = true → [c] ≠ guion.
Proof.
  intros [Hc _]%letraMayuscula_spec [= ->]. vm_compute in Hc. discriminate Hc.
Qed.

Lemma validarInput_letraMayuscula input :
  valido (validarInput input) = true →
  ∃ c, toUpperCase input = [c] ∧ letraMayuscula c = true.
Proof.
  intros (c & -> & Hc)%validarInput_valido. by apply mayuscula_letra_fija.
Qed.

(** ** The letters of a reachable state *)

Lemma comprobarLetra_vacio input palabra :
  comprobarLetra input palabra = [] ↔
  ∀ c, c ∈ palabra → [c] ≠ toUpperCase input.
Proof.
  split.
  - intros Hvacio c (i & Hi)%list_elem_of_lookup_1 Heq.
    assert (i ∈ comprobarLetra input palabra) as Hin
      by (apply elem_of_comprobarLetra; by exists c).
    rewrite Hvacio in Hin. by apply not_elem_of_nil in Hin.
  - intros Hno. destruct (comprobarLetra input palabra) as [|i resto] eqn:Heq;
      [done|].
    assert (i ∈ comprobarLetra input palabra) as Hin by (rewrite Heq; left).
    apply elem_of_comprobarLetra in Hin as (c & Hc & Hl).
    destruct (Hno c); [by eapply list_elem_of_lookup_2 | done].
Qed.

Lemma comprobarLetra_ocurre input palabra :
  comprobarLetra input palabra ≠ [] →
  ∃ c, c ∈ palabra ∧ [c] = toUpperCase input.
Proof.
  destruct (comprobarLetra input palabra) as [|i resto] eqn:Heq; [done|].
  intros _.
  assert (i ∈ comprobarLetra input palabra) as Hin by (rewrite Heq; left).
  apply elem_of_comprobarLetra in Hin as (c & Hc & Hl).
  exists c. split; [by eapply list_elem_of_lookup_2 | done].
Qed.

Lemma comprobarVictoria_guion celdas :
  comprobarVictoria celdas = false ↔ Some guion ∈ celdas.
Proof.
  unfold comprobarVictoria, includes.
  by rewrite negb_false_iff, bool_decide_eq_true.
Qed.

(** With no placeholder left, an array that follows the used letters is
    the secret word, and all the letters of the word are used. *)
Lemma victoria_todo_revelado (palabra : list N)
    (celdas : list (option (list N))) (usadas : gset (list N)) :
  length celdas = length palabra →
  (∀ i c, palabra !! i = Some c →
     leer celdas i = Some (if decide ([c] ∈ usadas) then [c] else guion)) →
  comprobarVictoria celdas = true →
  celdas = split palabra ∧ ∀ c, c ∈ palabra → [c] ∈ usadas.
Proof.
  intros Hlen Hcel Hvic.
  assert (Hpos : ∀ i c, palabra !! i = Some c →
                 [c] ∈ usadas ∧ celdas !! i = Some (Some [c])).
  { intros i c Hc. pose proof (Hcel i c Hc) as Hleer.
    apply lookup_de_leer in Hleer.
    destruct (decide ([c] ∈ usadas)); [done|].
    assert (comprobarVictoria celdas = false)
      by (apply comprobarVictoria_guion; by eapply list_elem_of_lookup_2).
    congruence. }
  split.
  - apply list_eq. intros i. rewrite lookup_split.
    destruct (palabra !! i) as [c|] eqn:Hc; simpl.
    + by apply Hpos.
    + apply lookup_ge_None_1 in Hc. apply lookup_ge_None_2. lia.
  - intros c (i & Hi)%list_elem_of_lookup_1. by apply (Hpos i).
Qed.

Lemma InvLetras_inicial cl : InvLetras (estadoInicial cl).
Proof.
  split; simpl; try done.
  - constructor.
  - intros l Hl. by apply not_elem_of_nil in Hl.
  - unfold MAX_INTENTOS. lia.
Qed.

Lemma InvLetras_solicitarPalabras theme e :
  InvLetras e → InvLetras (solicitarPalabras theme e).1.
Proof. intros []. by split. Qed.

Lemma InvLetras_mostrarError e : InvLetras e → InvLetras (mostrarError e).
Proof.
  intros []. split; try done.
  - unfold ganada. simpl. by rewrite andb_false_r.
  - unfold perdida. simpl. by rewrite andb_false_r.
Qed.

Lemma InvLetras_recibirPalabras carga r e :
  InvLetras e → InvLetras (recibirPalabras carga r e).
Proof.
  intros He. unfold recibirPalabras.
  pose proof (InvLetras_mostrarError e He).
  destruct carga as [palabras|]; [|done].
  destruct (obtenerPalabraAleatoria _ _) as [palabra|]; [|done].
  split; simpl; try done.
  - constructor.
  - intros l Hl. by apply not_elem_of_nil in Hl.
  - unfold MAX_INTENTOS. lia.
  - intros i c Hc. right. unfold crearGuiones, rellenar.
    apply lookup_replicate_2. by eapply lookup_lt_Some.
  - intros _ Hne. unfold crearGuiones, rellenar.
    apply elem_of_replicate. split; [done|]. by destruct palabra.
Qed.

Lemma InvLetras_procesarLetra input e :
  Inv e → InvLetras e → InvLetras (procesarLetra input e).1.
Proof.
  intros He Hl.
  destruct (procesarLetra_casos input e)
    as [(Ht & ->)|[(Ht & Hv & ->)|[(Ht & Hv & Hu & ->)
       |[(Ht & Hv & Hu & Hi & ->)|(Ht & Hv & Hu & Hi & ->)]]]];
    cbn [fst]; cbv zeta; try done.
  - (* the letter occurs *)
    pose proof (Inv_acierto input e He Ht) as [Hlen2 _ _ _ Hcel2].
    destruct Hl as [Hus Hrep Hnd Hinc Hmax Hcel Hgu Hga Hpe].
    destruct (validarInput_letraMayuscula input Hv) as (c' & Hc' & Hmay).
    destruct (comprobarLetra_ocurre _ _ Hi) as (c0 & Hc0 & Heq0).
    assert (Hus' : ∀ l, l ∈ {[toUpperCase input]} ∪ letrasUsadas e →
                   ∃ c, l = [c] ∧ letraMayuscula c = true).
    { intros l [->%elem_of_singleton|Hin]%elem_of_union; [by exists c'|].
      by apply Hus. }
    assert (Hrep' : ∀ l, l ∈ {[toUpperCase input]} ∪ letrasUsadas e →
                    l ∈ letrasIncorrectas e
                    ∨ ∃ c, c ∈ palabraSecreta e ∧ [c] = l).
    { intros l [->%elem_of_singleton|Hin]%elem_of_union;
        [right; by exists c0 | by apply Hrep]. }
    assert (Hinc' : ∀ l, l ∈ letrasIncorrectas e →
                    l ∈ {[toUpperCase input]} ∪ letrasUsadas e
                    ∧ ∀ c, c ∈ palabraSecreta e → [c] ≠ l).
    { intros l Hin. destruct (Hinc l Hin). split; [|done].
      apply elem_of_union. by right. }
    assert (Hcel' : ∀ i c, palabraSecreta e !! i = Some c →
              revelarLetras (letrasDescubiertas e) input
                (comprobarLetra input (palabraSecreta e)) !! i
                = Some (Some [c])
              ∨ revelarLetras (letrasDescubiertas e) input
                  (comprobarLetra input (palabraSecreta e)) !! i
                = Some (Some guion)).
    { intros i c Hc. specialize (Hcel2 Ht i c Hc). simpl in Hcel2.
      apply lookup_de_leer in Hcel2. case_decide; [by left | by right]. }
    destruct (comprobarVictoria _) eqn:Hvic.
    + split; simpl; try done.
      * intros _.
        destruct (victoria_todo_revelado (palabraSecreta e) _
                    ({[toUpperCase input]} ∪ letrasUsadas e) Hlen2
                    (Hcel2 Ht) Hvic) as [Heq Htodas].
        destruct He as [_ _ _ Hcota _]. specialize (Hcota Ht).
        split_and!; try done.
        intros Hnil. rewrite Hnil in Hc0. by apply elem_of_nil in Hc0.
    + split; simpl; try done;
        try (intros _ _; by apply comprobarVictoria_guion);
        try (unfold ganada, perdida; simpl; rewrite Ht; done).
  - (* the letter does not occur *)
    destruct He as [Hlen Hint Hex Hcota Hcel0]. specialize (Hcota Ht).
    destruct Hl as [Hus Hrep Hnd Hinc Hmax Hcel Hgu Hga Hpe].
    destruct (validarInput_letraMayuscula input Hv) as (c' & Hc' & Hmay).
    pose proof (proj1 (comprobarLetra_vacio _ _) Hi) as Hfuera.
    assert (Hus' : ∀ l, l ∈ {[toUpperCase input]} ∪ letrasUsadas e →
                   ∃ c, l = [c] ∧ letraMayuscula c = true).
    { intros l [->%elem_of_singleton|Hin]%elem_of_union; [by exists c'|].
      by apply Hus. }
    assert (Hrep' : ∀ l, l ∈ {[toUpperCase input]} ∪ letrasUsadas e →
                    l ∈ letrasIncorrectas e ++ [toUpperCase input]
                    ∨ ∃ c, c ∈ palabraSecreta e ∧ [c] = l).
    { intros l [->%elem_of_singleton|Hin]%elem_of_union.
      - left. apply elem_of_app. right. left.
      - destruct (Hrep l Hin) as [?|?]; [left | by right].
        apply elem_of_app. by left. }
    assert (Hnd' : NoDup (letrasIncorrectas e ++ [toUpperCase input])).
    { apply NoDup_app. split_and!; [done | | apply NoDup_singleton].
      intros l Hin ->%list_elem_of_singleton. by destruct (Hinc _ Hin). }
    assert (Hinc' : ∀ l, l ∈ letrasIncorrectas e ++ [toUpperCase input] →
                    l ∈ {[toUpperCase input]} ∪ letrasUsadas e
                    ∧ ∀ c, c ∈ palabraSecreta e → [c] ≠ l).
    { intros l [Hin| ->%list_elem_of_singleton]%elem_of_app.
      - destruct (Hinc l Hin). split; [|done]. apply elem_of_union. by right.
      - split; [|done]. apply elem_of_union. left. by apply elem_of_singleton. }
    case_bool_decide as Hfin.
    + split; simpl; try done;
        try (unfold MAX_INTENTOS in *; lia);
        try (intros i c Hc; left; by rewrite lookup_split, Hc);
        try (intros _; split; [done|]; unfold MAX_INTENTOS in *; lia).
    + split; simpl; try done;
        try (unfold MAX_INTENTOS in *; lia);
        try (unfold ganada, perdida; simpl; rewrite Ht; done).
Qed.

Lemma alcanzable_InvLetras e : alcanzable e → InvLetras e.
Proof.
  induction 1 as [cl|theme e _ IH|carga r e _ IH|input e He IH].
  - apply InvLetras_inicial.
  - by apply InvLetras_solicitarPalabras.
  - by apply InvLetras_recibirPalabras.
  - apply InvLetras_procesarLetra; [by apply alcanzable_Inv | done].
Qed.

(** ** [comprobarLetra]: the list of indices *)

Lemma comprobarDesde_ordenada letraMayuscula resto k :
  StronglySorted lt (comprobarDesde letraMayuscula resto k).
Proof.
  revert k. induction resto as [|c resto IH]; intros k; simpl; [constructor|].
  case_decide; [|apply IH]. constructor; [apply IH|].
  apply Forall_forall. intros j [Hj _]%elem_of_comprobarDesde. lia.
Qed.

Lemma length_comprobarDesde letraMayuscula resto k :
  length (comprobarDesde letraMayuscula resto k) =
  length (filter (λ c, [c] = letraMayuscula) resto).
Proof.
  revert k. induction resto as [|c resto IH]; intros k; simpl; [done|].
  case_decide.
  - rewrite filter_cons_True by done. simpl. by rewrite IH.
  - rewrite filter_cons_False by done. apply IH.
Qed.


(** ** The case of the letter typed *)

Lemma procesarLetra_misma_mayuscula input otra e :
  valido (validarInput input) = true →
  valido (validarInput otra) = true →
  toUpperCase otra = toUpperCase input →
  procesarLetra otra e = procesarLetra input e.
Proof.
  intros Hv1 Hv2 Heq.
  unfold procesarLetra, acierto, fallo, comprobarLetra, revelarLetras.
  by rewrite Hv1, Hv2, Heq.
Qed.

(** X2: the round does not tell the case of the letter typed. The upper
    case of a valid input is a valid input, upper-casing it again changes
    nothing, and two valid inputs with one upper case make [comprobarLetra]
    and [procesarLetra] do the same. *)
Theorem letra_sin_distincion_de_caja input :
  valido (validarInput input) = true →
  valido (validarInput (toUpperCase input)) = true
  ∧ toUpperCase (toUpperCase input) = toUpperCase input
  ∧ ∀ otra,
      valido (validarInput otra) = true →
      toUpperCase otra = toUpperCase input →
      (∀ palabra, comprobarLetra otra palabra = comprobarLetra input palabra)
      ∧ (∀ e, procesarLetra otra e = procesarLetra input e).
Proof.
  intros Hv.
  destruct (validarInput_letraMayuscula input Hv) as (c & Hc & Hmay).
  pose proof (letraMayuscula_valida c Hmay) as Hvc.
  apply letraMayuscula_spec in Hmay as [_ Hfija].
  rewrite Hc. split_and!; try done.
  intros otra Hvo Heq. split.
  - intros palabra. unfold comprobarLetra. by rewrite Heq, Hc.
  - intros e. apply procesarLetra_misma_mayuscula; try done.
    by rewrite Heq, Hc.
Qed.

Lemma letra_sin_distincion_de_caja_testigo :
  procesarLetra (deAscii "S") rondaSol = procesarLetra (deAscii "s") rondaSol.
Proof.
  refine (proj2 (proj2 (proj2 (letra_sin_distincion_de_caja (deAscii "s") _))
                   (deAscii "S") _ _) rondaSol).
  - vm_compute. reflexivity.
  - vm_compute. reflexivity.
  - vm_compute. reflexivity.
Defined.

(** ** [revelarLetras]: the indices as a set *)

Lemma arreglo_ext {A} (a b : list (option A)) :
  length a = length b → (∀ i, leer a i = leer b i) → a = b.
Proof.
  intros Hlen Hleer. apply list_eq. intros i.
  destruct (decide (i < length a)) as [Hi|Hi].
  - specialize (Hleer i). unfold leer in Hleer.
    destruct (lookup_lt_is_Some_2 a i Hi) as [x Hx].
    destruct (lookup_lt_is_Some_2 b i ltac:(lia)) as [y Hy].
    rewrite Hx, Hy in *. simpl in Hleer. unfold id in Hleer. by subst.
  - rewrite !lookup_ge_None_2 by lia. done.
Qed.

Lemma length_revelar_alcance a letra indices j :
  j < length (revelarLetras a letra indices) ↔
  j < length a ∨ ∃ i, i ∈ indices ∧ j ≤ i.
Proof.
  unfold revelarLetras. revert a.
  induction indices as [|k indices IH]; intros a; cbn [foldl].
  - split; [by left | intros [?|(i & Hi & _)]; [done|]].
    by apply not_elem_of_nil in Hi.
  - rewrite IH, length_asignar. split.
    + intros [Hlt|(i & Hi & Hle)].
      * destruct (decide (j < length a)); [by left | right].
        exists k. split; [left | lia].
      * right. exists i. split; [by right | done].
    + intros [Hlt|(i & [->|Hi]%elem_of_cons & Hle)].
      * left. lia.
      * left. lia.
      * right. by exists i.
Qed.

Lemma length_por_alcance (n m : nat) : (∀ j, j < n ↔ j < m) → n = m.
Proof.
  intros H. pose proof (H n). pose proof (H m). lia.
Qed.

(** X3: the result of [revelarLetras] depends on which indices are listed,
    not on their order or repetition; so revealing the same indices again
    changes nothing. *)
Theorem revelarLetras_por_conjunto a letra indices indices' :
  (∀ i, i ∈ indices ↔ i ∈ indices') →
  revelarLetras a letra indices = revelarLetras a letra indices'
  ∧ revelarLetras (revelarLetras a letra indices) letra indices'
    = revelarLetras a letra indices.
Proof.
  intros Hset. split.
  - apply arreglo_ext.
    + apply length_por_alcance. intros j. rewrite !length_revelar_alcance.
      by setoid_rewrite Hset.
    + intros j. rewrite !leer_revelar.
      destruct (decide (j ∈ indices)) as [Hj|Hj].
      * rewrite decide_True; [done | by apply Hset].
      * rewrite decide_False; [done | by rewrite <- Hset].
  - apply arreglo_ext.
    + apply length_por_alcance. intros j. rewrite !length_revelar_alcance.
      setoid_rewrite <- Hset. tauto.
    + intros j. rewrite !leer_revelar.
      destruct (decide (j ∈ indices')) as [Hj|Hj]; [|done].
      rewrite decide_True; [done | by apply Hset].
Qed.

Lemma revelarLetras_por_conjunto_testigo :
  revelarLetras arregloCasa (deAscii "a") [1; 3]
  = revelarLetras arregloCasa (deAscii "a") [3; 1; 3].
Proof.
  refine (proj1 (revelarLetras_por_conjunto arregloCasa (deAscii "a")
                   [1; 3] [3; 1; 3] _)).
  intros i. rewrite !elem_of_cons, !elem_of_nil. tauto.
Defined.

(** ** A start that succeeds *)

Lemma currentTheme_inicializarJuego theme red r e :
  currentTheme (inicializarJuego theme red r e) = default (currentTheme e) theme.
Proof.
  unfold inicializarJuego, solicitarPalabras, recibirPalabras. cbv zeta.
  destruct (cargarPalabras _ _) as [palabras|]; [|done].
  by destruct (obtenerPalabraAleatoria _ _).
Qed.

(** X4: when [inicializarJuego] does not fail, the file of the theme held
    a list of words, the secret word is the upper case of the text of one
    of its entries, and the round starts afresh: one placeholder per code
    unit of the word, no failed attempt, no used or wrong letter, the
    round running, the banner hidden. Such a round looks won from the
    start exactly when the word is empty. The texts of the list are taken
    within Latin-1, where [toUpperCase] is the case mapping of
    JavaScript. *)
Theorem inicio_logrado theme red r e :
  inicioFalla theme red r e = false →
  (∀ lista, red (archivoDe (default (currentTheme e) theme))
            = Documento (Some lista) → listaLatina1 lista = true) →
  let tema := default (currentTheme e) theme in
  let e' := inicializarJuego theme red r e in
  (∃ lista entrada texto,
     red (archivoDe tema) = Documento (Some lista)
     ∧ entrada ∈ lista
     ∧ item entrada = Some texto
     ∧ palabraSecreta e' = toUpperCase texto)
  ∧ letrasDescubiertas e' = replicate (length (palabraSecreta e')) (Some guion)
  ∧ intentosFallidos e' = 0
  ∧ juegoTerminado e' = false
  ∧ letrasUsadas e' = ∅
  ∧ letrasIncorrectas e' = []
  ∧ currentTheme e' = tema
  ∧ cl_hidden (resultMessage e') = true
  ∧ (comprobarVictoria (letrasDescubiertas e') = true ↔ palabraSecreta e' = []).
Proof.
  intros H _. unfold inicioFalla in H.
  unfold inicializarJuego, solicitarPalabras, recibirPalabras. cbv zeta.
  unfold cargarPalabras in *.
  destruct (red _) as [| | | |[lista|]] eqn:Hred; try done.
  unfold obtenerPalabraAleatoria in *.
  destruct (lista !! _) as [entrada|] eqn:Hent; [|done].
  destruct (item entrada) as [texto|] eqn:Htexto; [|done].
  simpl. split_and!; try done.
  - exists lista, entrada, texto. split_and!; try done.
    by eapply list_elem_of_lookup_2.
  - split.
    + intros Hvic. destruct (toUpperCase texto) as [|c resto]; [done|].
      apply not_false_iff_true in Hvic. destruct Hvic.
      apply comprobarVictoria_guion. unfold crearGuiones, rellenar. simpl. left.
    + by intros ->.
Qed.

Lemma inicio_logrado_testigo :
  letrasDescubiertas rondaGato = replicate (length (palabraSecreta rondaGato)) (Some guion).
Proof.
  refine (proj1 (proj2 (inicio_logrado (Some (Cadena "general"))
                          (redDe ["gato"]) sorteo0
                          (estadoInicial claseOculta) _ _))).
  - vm_compute. reflexivity.
  - intros lista [= <-]. vm_compute. reflexivity.
Defined.

(** ** The buttons *)

(** X6: the restart button starts the round that the "general" theme
    would start, whatever theme was in use: same file, same word, same
    state, except that [currentTheme] is left holding the click event, so
    that afterwards either theme button starts a round. *)
Theorem reinicio_ignora_tema red r e :
  let e' := clicReiniciar red r e in
  let g := inicializarJuego (Some (Cadena "general")) red r e in
  (solicitarPalabras (Some Evento) e).2 = "words.json"
  ∧ currentTheme e' = Evento
  ∧ palabraSecreta e' = palabraSecreta g
  ∧ letrasDescubiertas e' = letrasDescubiertas g
  ∧ intentosFallidos e' = intentosFallidos g
  ∧ juegoTerminado e' = juegoTerminado g
  ∧ letrasUsadas e' = letrasUsadas g
  ∧ letrasIncorrectas e' = letrasIncorrectas g
  ∧ resultMessage e' = resultMessage g
  ∧ ∀ tema red2 r2,
      clicTema tema red2 r2 e' = inicializarJuego (Some (Cadena tema)) red2 r2 e'.
Proof.
  intros e' g.
  assert (Htema : currentTheme e' = Evento)
    by apply currentTheme_inicializarJuego.
  assert (Hbotones : ∀ tema red2 r2,
            clicTema tema red2 r2 e'
            = inicializarJuego (Some (Cadena tema)) red2 r2 e').
  { intros tema red2 r2. unfold clicTema. rewrite Htema.
    by rewrite decide_True. }
  subst e' g. unfold clicReiniciar in *.
  split_and!; try done.
  all: unfold inicializarJuego, solicitarPalabras, recibirPalabras; cbv zeta.
  all: change (archivoDe (default (currentTheme e) (Some Evento)))
         with "words.json".
  all: change (archivoDe (default (currentTheme e) (Some (Cadena "general"))))
         with "words.json".
  all: destruct (cargarPalabras _ _) as [palabras|]; [|done].
  all: by destruct (obtenerPalabraAleatoria _ _).
Qed.

(** X7: after a click on a theme button that theme is the one in use,
    whether the words could be loaded or not; a second click on the same
    button does nothing, so a failed load is not tried again. *)
Theorem clicTema_repetido tema red r red2 r2 e :
  currentTheme (clicTema tema red r e) = Cadena tema
  ∧ clicTema tema red2 r2 (clicTema tema red r e) = clicTema tema red r e.
Proof.
  assert (H : currentTheme (clicTema tema red r e) = Cadena tema).
  { unfold clicTema.
    destruct (decide (currentTheme e ≠ Cadena tema)) as [Hne|Hne].
    - apply currentTheme_inicializarJuego.
    - destruct (decide (currentTheme e = Cadena tema)); [done | by destruct Hne]. }
  split; [done|].
  unfold clicTema at 1. rewrite H. by rewrite decide_False by (by intros ?).
Qed.

(** ** The text box *)

(** X8: the listener of the text box leaves the value as it is or clears
    it; what it leaves is empty or a valid input, and a valid input is
    never cleared. *)
Theorem alEscribir_deja_letra_o_nada valor :
  (alEscribir valor = valor ∨ alEscribir valor = [])
  ∧ (alEscribir valor = [] ∨ valido (validarInput (alEscribir valor)) = true)
  ∧ (alEscribir valor = valor ↔
       valor = [] ∨ valido (validarInput valor) = true).
Proof.
  unfold alEscribir, pruebaLetraOpcional.
  destruct valor as [|c [|c' resto]].
  - split_and!; [by left | by left | split; [by left | done]].
  - destruct (letraAceptada c) eqn:Hc.
    + assert (valido (validarInput [c]) = true)
        by (apply validarInput_valido; by exists c).
      split_and!; [by left | by right | split; [by right | done]].
    + split_and!; [by right | by left |].
      split; [done|]. intros [?|(c0 & [= <-] & ?)%validarInput_valido]; congruence.
  - split_and!; [by right | by left |].
    split; [done|]. intros [?|(c0 & ? & ?)%validarInput_valido]; congruence.
Qed.

(** ** When [procesarLetra] does something *)

(** X9: [procesarLetra] changes the state exactly when the round is
    running, the input is valid and its letter has not been used; it
    raises an alert exactly when the round is running and the input is
    invalid or its letter used. A call on a finished round does neither. *)
Theorem procesarLetra_cuando_cambia input e :
  ((procesarLetra input e).1 ≠ e ↔
     juegoTerminado e = false
     ∧ valido (validarInput input) = true
     ∧ toUpperCase input ∉ letrasUsadas e)
  ∧ ((procesarLetra input e).2 ≠ None ↔
       juegoTerminado e = false
       ∧ (valido (validarInput input) = false
          ∨ toUpperCase input ∈ letrasUsadas e)).
Proof.
  assert (Hcambia : juegoTerminado e = false →
                    valido (validarInput input) = true →
                    toUpperCase input ∉ letrasUsadas e →
                    (procesarLetra input e).1 ≠ e).
  { intros Ht Hv Hu Heq.
    pose proof (procesarLetra_registra input e Ht Hv) as Hin.
    by rewrite Heq in Hin. }
  destruct (procesarLetra_casos input e)
    as [(Ht & Hp)|[(Ht & Hv & Hp)|[(Ht & Hv & Hu & Hp)
       |[(Ht & Hv & Hu & Hi & Hp)|(Ht & Hv & Hu & Hi & Hp)]]]].
  - rewrite Hp. simpl. split; split; try done; intros (? & _); congruence.
  - rewrite Hp. simpl. split; split; try done.
    + intros (_ & ? & _). congruence.
    + intros _. split; [done | by left].
  - rewrite Hp. simpl. split; split; try done.
    + by intros (_ & _ & ?).
    + intros _. split; [done | by right].
  - split; [split; [done | by intros; apply Hcambia]|].
    rewrite Hp. simpl. split; [done|]. intros [_ [?|?]]; [congruence | done].
  - split; [split; [done | by intros; apply Hcambia]|].
    rewrite Hp. simpl. split; [done|]. intros [_ [?|?]]; [congruence | done].
Qed.

(** ** What a call of [procesarLetra] keeps *)

Lemma leer_split s i : leer (split s) i = (λ c, [c]) <$> s !! i.
Proof. unfold leer. rewrite lookup_split. by destruct (s !! i). Qed.

(** X10: in a reachable state a call of [procesarLetra] never changes the
    secret word or the theme, never takes a letter out of the used ones,
    adds at most one failed attempt and only appends to the wrong letters,
    and a position that shows a letter goes on showing that letter. *)
Theorem procesarLetra_monotona input e :
  alcanzable e →
  let e' := (procesarLetra input e).1 in
  palabraSecreta e' = palabraSecreta e
  ∧ currentTheme e' = currentTheme e
  ∧ letrasUsadas e ⊆ letrasUsadas e'
  ∧ intentosFallidos e ≤ intentosFallidos e' ≤ S (intentosFallidos e)
  ∧ letrasIncorrectas e `prefix_of` letrasIncorrectas e'
  ∧ ∀ i letra, leer (letrasDescubiertas e) i = Some letra → letra ≠ guion →
      leer (letrasDescubiertas e') i = Some letra.
Proof.
  intros He e'. subst e'.
  pose proof (alcanzable_Inv e He) as [Hlen Hint Hex Hcota Hcel].
  destruct (procesarLetra_casos input e)
    as [(Ht & ->)|[(Ht & Hv & ->)|[(Ht & Hv & Hu & ->)
       |[(Ht & Hv & Hu & Hi & ->)|(Ht & Hv & Hu & Hi & ->)]]]];
    cbn [fst]; cbv zeta; try (split_and!; done || lia).
  - assert (Hcasillas : ∀ i letra,
              leer (letrasDescubiertas e) i = Some letra → letra ≠ guion →
              leer (revelarLetras (letrasDescubiertas e) input
                      (comprobarLetra input (palabraSecreta e))) i
              = Some letra).
    { intros i letra Hleer Hletra. rewrite leer_revelar.
      case_decide as Hin; [|done].
      apply elem_of_comprobarLetra in Hin as (c & Hc & Heq).
      rewrite (Hcel Ht i c Hc) in Hleer.
      rewrite decide_False in Hleer by (by rewrite Heq). congruence. }
    case_match; simpl; split_and!; try done; try lia;
      apply union_subseteq_r.
  - assert (Hpre : letrasIncorrectas e
                   `prefix_of` letrasIncorrectas e ++ [toUpperCase input])
      by (by eexists).
    case_bool_decide; simpl; split_and!; try done; try lia;
      try apply union_subseteq_r.
    intros i letra Hleer Hletra. rewrite leer_split.
    destruct (palabraSecreta e !! i) as [c|] eqn:Hc.
    + rewrite (Hcel Ht i c Hc) in Hleer. simpl.
      case_decide; congruence.
    + apply lookup_ge_None_1 in Hc.
      unfold leer in Hleer. rewrite lookup_ge_None_2 in Hleer by lia. done.
Qed.

Lemma procesarLetra_monotona_testigo :
  alcanzable rondaSol7 ∧
  letrasUsadas rondaSol7 ⊆ letrasUsadas (procesarLetra (deAscii "o") rondaSol7).1.
Proof.
  split; [exact alcanzable_rondaSol7|].
  exact (proj1 (proj2 (proj2
           (procesarLetra_monotona (deAscii "o") rondaSol7
              alcanzable_rondaSol7)))).
Defined.

(** ** The letters of the round *)

(** X11: in every reachable state the used letters are single upper-case
    letters of the alphabet, each either in the secret word or among the
    wrong letters; the wrong letters are used letters that the word does
    not have, each listed once, and [intentosFallidos] is their number,
    never above [MAX_INTENTOS]. *)
Theorem letras_de_la_ronda e :
  alcanzable e →
  (∀ l, l ∈ letrasUsadas e →
     (∃ c, l = [c] ∧ letraMayuscula c = true)
     ∧ (l ∈ letrasIncorrectas e ∨ ∃ c, c ∈ palabraSecreta e ∧ [c] = l))
  ∧ (∀ l, l ∈ letrasIncorrectas e →
       l ∈ letrasUsadas e ∧ ∀ c, c ∈ palabraSecreta e → [c] ≠ l)
  ∧ NoDup (letrasIncorrectas e)
  ∧ intentosFallidos e = length (letrasIncorrectas e)
  ∧ intentosFallidos e ≤ MAX_INTENTOS.
Proof.
  intros He.
  pose proof (alcanzable_Inv e He) as [_ Hint _ _ _].
  pose proof (alcanzable_InvLetras e He) as [Hus Hrep Hnd Hinc Hmax _ _ _ _].
  split_and!; try done.
  intros l Hl. split; [by apply Hus | by apply Hrep].
Qed.

Lemma letras_de_la_ronda_testigo :
  alcanzable rondaSol7 ∧ NoDup (letrasIncorrectas rondaSol7).
Proof.
  split; [exact alcanzable_rondaSol7|].
  exact (proj1 (proj2 (proj2 (letras_de_la_ronda rondaSol7 alcanzable_rondaSol7)))).
Defined.

(** ** What [letrasDescubiertas] shows *)

(** X12: in every reachable state [letrasDescubiertas] has no empty slot,
    and each position holds the placeholder or the letter that the secret
    word has there, never another letter; while the round runs it holds
    the letter exactly when that letter has been used. *)
Theorem revelado_fiel e :
  alcanzable e →
  Forall is_Some (letrasDescubiertas e)
  ∧ (∀ i c, palabraSecreta e !! i = Some c →
       letrasDescubiertas e !! i = Some (Some [c])
       ∨ letrasDescubiertas e !! i = Some (Some guion))
  ∧ (juegoTerminado e = false →
     ∀ i c, palabraSecreta e !! i = Some c →
       letrasDescubiertas e !! i =
         Some (Some (if decide ([c] ∈ letrasUsadas e) then [c] else guion))).
Proof.
  intros He.
  pose proof (alcanzable_Inv e He) as [Hlen _ _ _ Hcel].
  pose proof (alcanzable_InvLetras e He) as [_ _ _ _ _ Hcel' _ _ _].
  split_and!; [|done|].
  - apply Forall_lookup. intros i celda Hi.
    pose proof (lookup_lt_Some _ _ _ Hi) as Hlt. rewrite Hlen in Hlt.
    destruct (lookup_lt_is_Some_2 _ _ Hlt) as [c Hc].
    destruct (Hcel' i c Hc) as [H|H]; rewrite H in Hi; by simplify_eq.
  - intros Ht i c Hc. by apply lookup_de_leer, Hcel.
Qed.

Lemma revelado_fiel_testigo :
  alcanzable rondaSol7 ∧ Forall is_Some (letrasDescubiertas rondaSol7).
Proof.
  split; [exact alcanzable_rondaSol7|].
  exact (proj1 (revelado_fiel rondaSol7 alcanzable_rondaSol7)).
Defined.

Lemma alcanzable_rondaGatoGanada : alcanzable rondaGatoGanada.
Proof. apply alcanzable_jugar, alc_inicio, alc_inicial. Qed.

(** X13: in a reachable state, a round that is won or lost shows the whole
    secret word; a won round has fewer than [MAX_INTENTOS] failed
    attempts, a lost one exactly [MAX_INTENTOS], one per wrong letter. *)
Theorem ronda_terminada_muestra_palabra e :
  alcanzable e →
  (ganada e = true →
     letrasDescubiertas e = split (palabraSecreta e)
     ∧ intentosFallidos e < MAX_INTENTOS)
  ∧ (perdida e = true →
       letrasDescubiertas e = split (palabraSecreta e)
       ∧ intentosFallidos e = MAX_INTENTOS
       ∧ length (letrasIncorrectas e) = MAX_INTENTOS).
Proof.
  intros He.
  pose proof (alcanzable_Inv e He) as [_ Hint _ _ _].
  pose proof (alcanzable_InvLetras e He) as [_ _ _ _ _ _ _ Hga Hpe].
  split.
  - intros Hg. by destruct (Hga Hg) as (? & ? & _).
  - intros Hp. destruct (Hpe Hp) as (? & ?). split_and!; try done. lia.
Qed.

Lemma ronda_terminada_muestra_palabra_testigo :
  alcanzable rondaGatoGanada ∧
  (ganada rondaGatoGanada = true →
   letrasDescubiertas rondaGatoGanada = split (palabraSecreta rondaGatoGanada)
   ∧ intentosFallidos rondaGatoGanada < MAX_INTENTOS).
Proof.
  split; [exact alcanzable_rondaGatoGanada|].
  exact (proj1 (ronda_terminada_muestra_palabra rondaGatoGanada
                  alcanzable_rondaGatoGanada)).
Defined.

(** X14: a round can only be won on a word that is not empty and is made
    of upper-case letters of the alphabet, all of them used: a word with a
    blank, a digit, a hyphen or an underscore is never won. *)
Theorem solo_se_ganan_palabras_de_letras e :
  alcanzable e →
  ganada e = true →
  palabraSecreta e ≠ []
  ∧ Forall (λ c, letraMayuscula c = true ∧ [c] ∈ letrasUsadas e)
           (palabraSecreta e).
Proof.
  intros He Hg.
  pose proof (alcanzable_InvLetras e He) as [Hus _ _ _ _ _ _ Hga _].
  destruct (Hga Hg) as (_ & _ & Hne & Htodas). split; [done|].
  apply Forall_forall. intros c Hc. specialize (Htodas c Hc).
  split; [|done].
  destruct (Hus _ Htodas) as (c' & [= <-] & Hmay). done.
Qed.

Lemma solo_se_ganan_palabras_de_letras_testigo :
  alcanzable rondaGatoGanada ∧ ganada rondaGatoGanada = true ∧
  palabraSecreta rondaGatoGanada ≠ [].
Proof.
  assert (Hg : ganada rondaGatoGanada = true) by (vm_compute; reflexivity).
  split; [exact alcanzable_rondaGatoGanada|]. split; [exact Hg|].
  exact (proj1 (solo_se_ganan_palabras_de_letras rondaGatoGanada
                  alcanzable_rondaGatoGanada Hg)).
Defined.

(** ** Playing the letters of the word *)

(** One letter of the word, typed in a reachable state that is won or
    running: the state stays so, with the word and the failed attempts as
    they were, and the letter is used afterwards unless the round is
    won. *)
Lemma jugar_letra_de_la_palabra c e :
  alcanzable e →
  ganada e = true ∨ juegoTerminado e = false →
  c ∈ palabraSecreta e → letraMayuscula c = true →
  let e' := (procesarLetra [c] e).1 in
  palabraSecreta e' = palabraSecreta e
  ∧ intentosFallidos e' = intentosFallidos e
  ∧ (ganada e' = true ∨ (juegoTerminado e' = false ∧ [c] ∈ letrasUsadas e')).
Proof.
  intros He Hest Hc Hmay e'. subst e'.
  pose proof (letraMayuscula_valida c Hmay) as Hv.
  apply letraMayuscula_spec in Hmay as [_ Hfija].
  destruct (procesarLetra_casos [c] e)
    as [(Ht & ->)|[(Ht & Hv' & ->)|[(Ht & _ & Hu & ->)
       |[(Ht & _ & Hu & Hi & ->)|(Ht & _ & Hu & Hi & ->)]]]];
    cbn [fst]; cbv zeta.
  - split_and!; try done. left. destruct Hest as [?|?]; [done | congruence].
  - congruence.
  - split_and!; try done. right. by rewrite <- Hfija.
  - unfold acierto, finalizarJuego. rewrite Hfija.
    case_match; unfold ganada;
      cbn [palabraSecreta intentosFallidos juegoTerminado letrasUsadas
           resultMessage cl_win andb];
      split_and!; try done.
    + by left.
    + right. split; [done|].
      apply elem_of_union. left. by apply elem_of_singleton.
  - destruct (proj1 (comprobarLetra_vacio _ _) Hi c Hc). by rewrite Hfija.
Qed.

Lemma jugar_letras_de_la_palabra letras e :
  alcanzable e →
  ganada e = true ∨ juegoTerminado e = false →
  (∀ c, c ∈ letras → c ∈ palabraSecreta e ∧ letraMayuscula c = true) →
  let e' := jugar ((λ c, [c]) <$> letras) e in
  alcanzable e'
  ∧ palabraSecreta e' = palabraSecreta e
  ∧ intentosFallidos e' = intentosFallidos e
  ∧ (ganada e' = true
     ∨ (juegoTerminado e' = false ∧ ∀ c, c ∈ letras → [c] ∈ letrasUsadas e')).
Proof.
  revert e. induction letras as [|c letras IH]; intros e He Hest Hletras.
  - simpl. split_and!; try done.
    destruct Hest as [?|?]; [by left | right]. split; [done|].
    intros c Hc. by apply elem_of_nil in Hc.
  - destruct (Hletras c) as [Hc Hmay]; [left|].
    destruct (jugar_letra_de_la_palabra c e He Hest Hc Hmay)
      as (Hpal & Hint & Hest').
    assert (He1 : alcanzable (procesarLetra [c] e).1) by by apply alc_letra.
    destruct (IH (procesarLetra [c] e).1 He1) as (Hal & Hpal2 & Hint2 & Hfin).
    + destruct Hest' as [?|[? _]]; [by left | by right].
    + intros c' Hc'. rewrite Hpal. apply Hletras. by right.
    + change (jugar ((λ c, [c]) <$> c :: letras) e)
        with (jugar ((λ c, [c]) <$> letras) (procesarLetra [c] e).1).
      split_and!; [done | congruence | congruence |].
      destruct Hfin as [?|[Ht Hus]]; [by left | right]. split; [done|].
      intros c' [->|Hc']%elem_of_cons; [|by apply Hus].
      destruct Hest' as [Hg|[_ Hin]].
      * (* won at the first letter: then the round was over *)
        unfold ganada in Hg. apply andb_true_iff in Hg as [Hg _].
        assert (juegoTerminado
                  (jugar ((λ c, [c]) <$> letras) (procesarLetra [c] e).1)
                = true); [|congruence].
        clear -Hg. generalize dependent (procesarLetra [c] e).1.
        induction letras as [|x letras IH]; intros e1 Hg; [done|].
        simpl. apply IH. by rewrite procesarLetra_terminado.
      * by apply usadas_crecen_jugar.
Qed.

Lemma jugar_la_palabra e :
  alcanzable e →
  juegoTerminado e = false →
  palabraSecreta e ≠ [] →
  Forall (λ c, letraMayuscula c = true) (palabraSecreta e) →
  let e' := jugar ((λ c, [c]) <$> palabraSecreta e) e in
  ganada e' = true
  ∧ intentosFallidos e' = intentosFallidos e
  ∧ palabraSecreta e' = palabraSecreta e
  ∧ letrasDescubiertas e' = split (palabraSecreta e).
Proof.
  intros He Ht Hne Hletras e'. rewrite Forall_forall in Hletras.
  destruct (jugar_letras_de_la_palabra (palabraSecreta e) e He)
    as (Hal & Hpal & Hint & Hfin); [by right | by intros c Hc; split; auto |].
  fold e' in Hal, Hpal, Hint, Hfin.
  assert (Hg : ganada e' = true).
  { destruct Hfin as [?|[Ht' Hus]]; [done | exfalso].
    pose proof (alcanzable_Inv e' Hal) as [Hlen _ _ _ Hcel].
    pose proof (alcanzable_InvLetras e' Hal) as [_ _ _ _ _ _ Hgu _ _].
    rewrite Hpal in *.
    destruct (list_elem_of_lookup_1 _ _ (Hgu Ht' Hne)) as (i & Hi).
    pose proof (lookup_lt_Some _ _ _ Hi) as Hlt. rewrite Hlen in Hlt.
    destruct (lookup_lt_is_Some_2 _ _ Hlt) as [c Hc].
    pose proof (Hcel Ht' i c Hc) as Hleer. apply lookup_de_leer in Hleer.
    assert (Hc' : c ∈ palabraSecreta e) by by eapply list_elem_of_lookup_2.
    rewrite decide_True in Hleer by by apply Hus.
    rewrite Hi in Hleer.
    apply (letraMayuscula_no_guion c (Hletras c Hc')). congruence. }
  split_and!; try done.
  pose proof (alcanzable_InvLetras e' Hal) as [_ _ _ _ _ _ _ Hga _].
  destruct (Hga Hg) as (Hd & _). by rewrite Hd, Hpal.
Qed.

(** X15: a running round on a word that is not empty and is made of
    upper-case letters of the alphabet is won by typing the letters of the
    word one after the other, with no failed attempt added. *)
Theorem palabra_de_letras_se_gana e :
  alcanzable e →
  juegoTerminado e = false →
  palabraSecreta e ≠ [] →
  Forall (λ c, letraMayuscula c = true) (palabraSecreta e) →
  let e' := jugar ((λ c, [c]) <$> palabraSecreta e) e in
  ganada e' = true
  ∧ intentosFallidos e' = intentosFallidos e
  ∧ palabraSecreta e' = palabraSecreta e
  ∧ letrasDescubiertas e' = split (palabraSecreta e).
Proof. apply jugar_la_palabra. Qed.

Lemma palabra_de_letras_se_gana_testigo :
  alcanzable rondaGato ∧
  ganada (jugar ((λ c, [c]) <$> palabraSecreta rondaGato) rondaGato) = true.
Proof.
  assert (He : alcanzable rondaGato) by apply alc_inicio, alc_inicial.
  split; [exact He|].
  refine (proj1 (palabra_de_letras_se_gana rondaGato He _ _ _)).
  - vm_compute. reflexivity.
  - vm_compute. intros H. discriminate H.
  - vm_compute. repeat constructor.
Defined.

(** ** Playing letters that the word does not have *)

(** X16: in a running round with [n] failed attempts, [k] valid inputs
    with different upper cases, none used yet and none in the word, with
    [n + k] at most [MAX_INTENTOS], bring the failed attempts to [n + k]
    and are appended, upper-cased, to the wrong letters; the round is then
    lost exactly when [n + k] is [MAX_INTENTOS], and otherwise still runs
    with [letrasDescubiertas] as it was. *)
Theorem fallos_sucesivos entradas e :
  juegoTerminado e = false →
  Forall (λ input, valido (validarInput input) = true
                   ∧ (toUpperCase input ∉ letrasUsadas e)
                   ∧ comprobarLetra input (palabraSecreta e) = []) entradas →
  NoDup (toUpperCase <$> entradas) →
  intentosFallidos e + length entradas ≤ MAX_INTENTOS →
  let e' := jugar entradas e in
  intentosFallidos e' = intentosFallidos e + length entradas
  ∧ letrasIncorrectas e' = letrasIncorrectas e ++ (toUpperCase <$> entradas)
  ∧ palabraSecreta e' = palabraSecreta e
  ∧ (perdida e' = true ↔
       entradas ≠ [] ∧ intentosFallidos e + length entradas = MAX_INTENTOS)
  ∧ (intentosFallidos e + length entradas < MAX_INTENTOS →
     juegoTerminado e' = false
     ∧ letrasDescubiertas e' = letrasDescubiertas e).
Proof.
  revert e. induction entradas as [|input entradas IH];
    intros e Ht Hall Hnd Hmax.
  - simpl. unfold perdida. rewrite Ht. simpl.
    rewrite Nat.add_0_r, app_nil_r. split_and!; try done.
    split; [done | by intros []].
  - apply Forall_cons in Hall as [(Hv & Hu & Hi) Hall].
    rewrite fmap_cons in Hnd. apply NoDup_cons in Hnd as [Hnin Hnd].
    simpl in Hmax.
    change (jugar (input :: entradas) e)
      with (jugar entradas (procesarLetra input e).1).
    rewrite procesarLetra_fallo by done. cbn [fst].
    case_bool_decide as Hfin.
    + (* the last attempt: nothing can follow *)
      destruct entradas as [|otra entradas]; [|simpl in Hmax; lia].
      simpl. unfold perdida. simpl. unfold MAX_INTENTOS in *. desglosar.
    + destruct (IH (fallo input e)) as (Hint & Hinc & Hpal & Hper & Hsig).
      * done.
      * apply Forall_forall. intros otra Hotra.
        rewrite Forall_forall in Hall.
        destruct (Hall otra Hotra) as (Hv' & Hu' & Hi').
        split_and!; try done. simpl.
        intros [Heq%elem_of_singleton|?]%elem_of_union; [|done].
        apply Hnin. rewrite <- Heq. by apply list_elem_of_fmap_2.
      * done.
      * simpl. lia.
      * simpl in *. rewrite Hint, Hinc, Hpal, <- app_assoc. simpl.
        split_and!; try done; try lia.
        -- rewrite Hper. split.
           ++ intros [_ ?]. split; [done | lia].
           ++ intros [_ ?]. split; [|lia].
              destruct entradas; [simpl in *; lia | done].
        -- intros Hlt. apply Hsig. lia.
Qed.

Lemma fallos_sucesivos_testigo :
  intentosFallidos (jugar (letras ["a"; "b"; "c"]) rondaSol) =
  intentosFallidos rondaSol + length (letras ["a"; "b"; "c"]).
Proof.
  refine (proj1 (fallos_sucesivos (letras ["a"; "b"; "c"]) rondaSol _ _ _ _)).
  - vm_compute. reflexivity.
  - repeat constructor; try (vm_compute; reflexivity);
      vm_compute; intros H; discriminate H.
  - vm_compute. repeat constructor; intros H; inversion H as [|? ? ? H'];
      subst; try inversion H' as [|? ? ? H'']; subst; try inversion H''.
  - vm_compute. lia.
Defined.

(** ** What the page shows *)

(** X17: in every reachable state the counter that [actualizarIntentos]
    writes is 8 minus the number of wrong letters, between 0 and 8, at
    least 1 while the round runs and 0 when it is lost; and the picture
    that [obtenerImagenAhorcado] names for the failed attempts is one of
    nine files. *)
Theorem contador_e_imagen e :
  alcanzable e →
  (0 ≤ restantes (actualizarIntentos e) ≤ 8)%Z
  ∧ restantes (actualizarIntentos e)
    = (8 - Z.of_nat (length (letrasIncorrectas e)))%Z
  ∧ (juegoTerminado e = false → (1 ≤ restantes (actualizarIntentos e))%Z)
  ∧ (perdida e = true → restantes (actualizarIntentos e) = 0%Z)
  ∧ obtenerImagenAhorcado (intentosFallidos e) ∈
      ["images/Hangman-0.png"; "images/Hangman-1.png"; "images/Hangman-2.png";
       "images/Hangman-3.png"; "images/Hangman-4.png"; "images/Hangman-5.png";
       "images/Hangman-6.png"; "images/Hangman-7.png"; "images/Hangman-8.png"].
Proof.
  intros He.
  pose proof (alcanzable_Inv e He) as [_ Hint _ Hcota _].
  pose proof (alcanzable_InvLetras e He) as [_ _ _ _ Hmax _ _ _ Hpe].
  unfold actualizarIntentos, MAX_INTENTOS in *. simpl.
  split_and!; try lia.
  - intros Ht. specialize (Hcota Ht). lia.
  - intros Hp. destruct (Hpe Hp) as [_ ->]. lia.
  - clear -Hmax. destruct (intentosFallidos e) as [|n]; [vm_compute; repeat constructor|].
    do 8 (destruct n as [|n]; [vm_compute; repeat constructor|]). lia.
Qed.

Lemma contador_e_imagen_testigo :
  alcanzable rondaSol7 ∧ (0 ≤ restantes (actualizarIntentos rondaSol7) ≤ 8)%Z.
Proof.
  split; [exact alcanzable_rondaSol7|].
  exact (proj1 (contador_e_imagen rondaSol7 alcanzable_rondaSol7)).
Defined.

Lemma renderizarPalabra_sin_huecos celdas :
  Forall is_Some celdas →
  renderizarPalabra celdas =
    (λ celda, match celda with
              | Some letra => if decide (letra = guion) then [] else letra
              | None => []
              end) <$> celdas.
Proof.
  unfold renderizarPalabra.
  induction 1 as [|celda celdas [letra ->] _ IH]; [done|].
  simpl. f_equal. exact IH.
Qed.

(** X18: in every reachable state [renderizarPalabra] draws one box per
    code unit of the secret word, and each box is empty or shows the
    letter that the word has there; while the round runs a box shows its
    letter exactly when the letter has been used, and when the round is
    won or lost the boxes spell the word (an underscore of the word being
    drawn as an empty box). *)
Theorem renderizarPalabra_cajas e :
  alcanzable e →
  length (renderizarPalabra (letrasDescubiertas e)) = length (palabraSecreta e)
  ∧ (∀ i c, palabraSecreta e !! i = Some c →
       renderizarPalabra (letrasDescubiertas e) !! i = Some [c]
       ∨ renderizarPalabra (letrasDescubiertas e) !! i = Some [])
  ∧ (juegoTerminado e = false →
     ∀ i c, palabraSecreta e !! i = Some c →
       renderizarPalabra (letrasDescubiertas e) !! i =
         Some (if decide ([c] ∈ letrasUsadas e) then [c] else []))
  ∧ (ganada e = true ∨ perdida e = true →
     renderizarPalabra (letrasDescubiertas e) =
       (λ c, if decide ([c] = guion) then [] else [c]) <$> palabraSecreta e).
Proof.
  intros He.
  pose proof (alcanzable_Inv e He) as [Hlen _ _ _ Hcel].
  pose proof (alcanzable_InvLetras e He) as [Hus _ _ _ _ Hcel' _ Hga Hpe].
  assert (Hsin : Forall is_Some (letrasDescubiertas e)).
  { apply Forall_lookup. intros i celda Hi.
    pose proof (lookup_lt_Some _ _ _ Hi) as Hlt. rewrite Hlen in Hlt.
    destruct (lookup_lt_is_Some_2 _ _ Hlt) as [c Hc].
    destruct (Hcel' i c Hc) as [H|H]; rewrite H in Hi; by simplify_eq. }
  rewrite (renderizarPalabra_sin_huecos _ Hsin).
  split_and!.
  - by rewrite length_fmap.
  - intros i c Hc. rewrite list_lookup_fmap.
    destruct (Hcel' i c Hc) as [->| ->]; simpl.
    + case_decide; [by right | by left].
    + by right.
  - intros Ht i c Hc. rewrite list_lookup_fmap.
    pose proof (Hcel Ht i c Hc) as Hleer. apply lookup_de_leer in Hleer.
    rewrite Hleer. cbn [fmap option_fmap option_map].
    destruct (decide ([c] ∈ letrasUsadas e)) as [Hin|Hin].
    + destruct (Hus _ Hin) as (c' & [= <-] & Hmay).
      by rewrite decide_False by by apply letraMayuscula_no_guion.
    + by rewrite decide_True.
  - intros Hfin.
    assert (Hd : letrasDescubiertas e = split (palabraSecreta e)).
    { destruct Hfin as [Hg|Hp]; [by destruct (Hga Hg) | by destruct (Hpe Hp)]. }
    rewrite Hd. unfold split. rewrite <- list_fmap_compose. done.
Qed.

Lemma renderizarPalabra_cajas_testigo :
  alcanzable rondaSol7 ∧
  length (renderizarPalabra (letrasDescubiertas rondaSol7))
  = length (palabraSecreta rondaSol7).
Proof.
  split; [exact alcanzable_rondaSol7|].
  exact (proj1 (renderizarPalabra_cajas rondaSol7 alcanzable_rondaSol7)).
Defined.

Example renderizarPalabra_sol :
  renderizarPalabra (letrasDescubiertas (jugar (letras ["o"]) rondaSol))
  = [[]; deAscii "O"; []].
Proof. vm_compute. reflexivity. Qed.

(** ** From the list of words to a round that can be won *)

Lemma toUpperCase_cons c s :
  toUpperCase (c :: s) = toUpperCase [c] ++ toUpperCase s.
Proof.
  unfold toUpperCase. cbn [mbind list_bind]. by rewrite app_nil_r.
Qed.

Lemma toUpperCase_letras texto :
  Forall (λ c, letraAceptada c = true) texto →
  Forall (λ c, letraMayuscula c = true) (toUpperCase texto)
  ∧ length (toUpperCase texto) = length texto.
Proof.
  induction 1 as [|c texto Hc _ [IH1 IH2]]; [by split|].
  rewrite toUpperCase_cons.
  destruct (mayuscula_letra_fija c Hc) as (c' & -> & Hmay).
  simpl. split; [by constructor | by rewrite IH2].
Qed.

(** X19: when the file of the theme holds a list of words that is not
    empty and whose entries are non-empty texts over the alphabet,
    [inicializarJuego] succeeds for every draw, the new word is as long as
    the text drawn, and typing the letters of the word one after the other
    wins the round with no failed attempt. *)
Theorem lista_de_letras_da_ronda_ganable theme red r lista e :
  alcanzable e →
  red (archivoDe (default (currentTheme e) theme)) = Documento (Some lista) →
  lista ≠ [] →
  Forall (λ entrada, ∃ texto, item entrada = Some texto ∧ texto ≠ []
                              ∧ Forall (λ c, letraAceptada c = true) texto)
         lista →
  num r < den r →
  let e' := inicializarJuego theme red r e in
  let e'' := jugar ((λ c, [c]) <$> palabraSecreta e') e' in
  inicioFalla theme red r e = false
  ∧ juegoTerminado e' = false
  ∧ (∃ entrada texto, entrada ∈ lista ∧ item entrada = Some texto
       ∧ palabraSecreta e' = toUpperCase texto
       ∧ length (palabraSecreta e') = length texto)
  ∧ ganada e'' = true
  ∧ intentosFallidos e'' = 0
  ∧ letrasDescubiertas e'' = split (palabraSecreta e').
Proof.
  intros He Hred Hne Hlista Hr e'.
  assert (Hal : alcanzable e') by by apply alc_inicio.
  assert (Hn : 0 < length lista) by (destruct lista; [done | simpl; lia]).
  pose proof (indiceAleatorio_cota r _ Hr Hn) as Hi.
  destruct (lookup_lt_is_Some_2 _ _ Hi) as [entrada Hentrada].
  rewrite Forall_forall in Hlista.
  destruct (Hlista entrada) as (texto & Hitem & Htexto & Hletras);
    [by eapply list_elem_of_lookup_2|].
  destruct (toUpperCase_letras texto Hletras) as [Hmay Hlen].
  assert (Hfalla : inicioFalla theme red r e = false).
  { unfold inicioFalla, cargarPalabras, obtenerPalabraAleatoria.
    by rewrite Hred, Hentrada, Hitem. }
  assert (He' : palabraSecreta e' = toUpperCase texto
                ∧ juegoTerminado e' = false ∧ intentosFallidos e' = 0).
  { subst e'.
    unfold inicializarJuego, solicitarPalabras, recibirPalabras,
      cargarPalabras, obtenerPalabraAleatoria. cbv zeta.
    by rewrite Hred, Hentrada, Hitem. }
  destruct He' as (Hpal & Ht & Hint).
  assert (Hno : palabraSecreta e' ≠ []).
  { intros Hnil. rewrite Hpal in Hnil.
    apply (f_equal length) in Hnil. rewrite Hlen in Hnil.
    by destruct texto. }
  intros e''.
  destruct (jugar_la_palabra e' Hal Ht Hno) as (Hg & Hint' & _ & Hd);
    [by rewrite Hpal|].
  split_and!; try done.
  - exists entrada, texto. split_and!; try done.
    + by eapply list_elem_of_lookup_2.
    + by rewrite Hpal.
  - subst e''. by rewrite Hint'.
Qed.

Lemma lista_de_letras_da_ronda_ganable_testigo :
  ganada (jugar ((λ c, [c]) <$> palabraSecreta rondaGato) rondaGato) = true.
Proof.
  refine (proj1 (proj2 (proj2 (proj2
            (lista_de_letras_da_ronda_ganable (Some (Cadena "general"))
               (redDe ["gato"]) {| num := 0; den := 1 |}
               [ {| item := Some (deAscii "gato") |} ]
               (estadoInicial claseOculta) (alc_inicial claseOculta)
               _ _ _ _))))).
  - reflexivity.
  - intros H. discriminate H.
  - constructor; [|constructor].
    exists (deAscii "gato"). split; [reflexivity|]. split.
    + intros H. discriminate H.
    + vm_compute. repeat constructor.
  - simpl. lia.
Defined.
